(** * Hexapod leg kinematics: [ik_solver.cpp]

    A shallow embedding of the analytical inverse / forward kinematics of
    [src/hexapod_control/locomotion/lib/ik_solver.cpp].

    The source computes on C++ [double].  The functions are embedded once,
    over an interface [Scalar] that lists exactly the operations the source
    applies to a [double], and the interface is instantiated twice:

    - [Binary64]: IEEE-754 binary64 as the kernel's primitive floats.  This
      is the arithmetic of the code.  The arithmetic, [sqrt], [fabs] and the
      comparisons are the primitive ones; [atan2], [acos], [sin], [cos] come
      from the platform's [libm] and are a parameter [Libm] of the instance.
      What depends on rounding, on overflow, on a NaN or on a signed zero is
      stated here: the reachability tests, the workspace query, the bounds
      of the position [solve_fk] returns, the round trip at sample targets,
      and the inputs at which a property stops.
    - [Exact]: the real numbers, with [sqrt], [acos], [sin], [cos] of the
      Standard Library and [atan2] defined from [atan].  It is used for
      statements that rounding does not change: a computed value compared
      with a constant, an integer result, an order kept by every rounded
      operation.

    A C++ exception is a value: [solve_ik] returns a [Result]. *)

From Stdlib Require Import ZArith Reals Lra Lia Psatz Bool.
From Stdlib Require Floats.

Set Implicit Arguments.

(** ** The operations on [double] used by the source *)

Class Scalar (T : Type) : Type := {
  lit : Z -> T;                 (* the literals 0.0, 1.0, -1.0, 2.0, 90.0, 180.0 *)
  m_pi : T;                     (* M_PI *)
  num_add : T -> T -> T;
  num_sub : T -> T -> T;
  num_mul : T -> T -> T;
  num_div : T -> T -> T;
  num_lt : T -> T -> bool;      (* operator< ; [a > b] is [num_lt b a] *)
  num_sqrt : T -> T;
  num_fabs : T -> T;
  num_atan2 : T -> T -> T;
  num_acos : T -> T;
  num_sin : T -> T;
  num_cos : T -> T
}.

Declare Scope num_scope.
Delimit Scope num_scope with num.
Infix "+" := num_add : num_scope.
Infix "-" := num_sub : num_scope.
Infix "*" := num_mul : num_scope.
Infix "/" := num_div : num_scope.
Infix "<?" := num_lt : num_scope.

(** ** Data model *)

Record Position3D (T : Type) : Type := mkPosition3D {
  x : T;
  y : T;
  z : T
}.

Record JointAngles (T : Type) : Type := mkJointAngles {
  coxa : T;
  femur : T;
  tibia : T
}.

Record LegDimensions (T : Type) : Type := mkLegDimensions {
  coxa_length : T;
  femur_length : T;
  tibia_length : T
}.

(** The two [std::runtime_error]s of [solve_ik], told apart by their message:
    "too far" (line 89) and "too close" (line 93). *)
Inductive UnreachableError : Type :=
| TooFar
| TooClose.

Inductive Result (A : Type) : Type :=
| Ok (a : A)
| Err (e : UnreachableError).

Arguments Err {A} e.

(** ** The functions of [ik_solver.cpp] *)

Section Solver.

Context {T : Type} {num : Scalar T}.

Local Open Scope num_scope.

(** [std::max(a, b)] is [(a < b) ? b : a]; [std::min(a, b)] is
    [(b < a) ? b : a].  The argument order matters on a NaN. *)
Definition std_max (a b : T) : T := if a <? b then b else a.
Definition std_min (a b : T) : T := if b <? a then b else a.

Definition deg_to_rad (degrees : T) : T := degrees * m_pi / lit 180.

Definition rad_to_deg (radians : T) : T := radians * lit 180 / m_pi.

Definition clamp_angle_between (angle_deg min_deg max_deg : T) : T :=
  std_max min_deg (std_min max_deg angle_deg).

(** [clamp_angle] with its default bounds 0.0 and 180.0. *)
Definition clamp_angle (angle_deg : T) : T :=
  clamp_angle_between angle_deg (lit 0) (lit 180).

Definition solve_ik (target : Position3D T) (dimensions : LegDimensions T)
  : Result (JointAngles T) :=
  let coxa_angle_rad := num_atan2 (y target) (x target) in
  let xy_distance := num_sqrt (x target * x target + y target * y target) in
  let femur_base_distance := xy_distance - coxa_length dimensions in
  let horizontal_reach := femur_base_distance in
  let vertical_reach := z target in
  let reach_distance :=
    num_sqrt (horizontal_reach * horizontal_reach
              + vertical_reach * vertical_reach) in
  let max_reach := femur_length dimensions + tibia_length dimensions in
  let min_reach := num_fabs (femur_length dimensions - tibia_length dimensions) in
  if max_reach <? reach_distance then Err TooFar
  else if reach_distance <? min_reach then Err TooClose
  else
    let cos_tibia :=
      (femur_length dimensions * femur_length dimensions
       + tibia_length dimensions * tibia_length dimensions
       - reach_distance * reach_distance)
      / (lit 2 * femur_length dimensions * tibia_length dimensions) in
    let cos_tibia := std_max (lit (-1)) (std_min (lit 1) cos_tibia) in
    let tibia_angle_rad := num_acos cos_tibia in
    let reach_angle := num_atan2 vertical_reach horizontal_reach in
    let cos_femur_offset :=
      (femur_length dimensions * femur_length dimensions
       + reach_distance * reach_distance
       - tibia_length dimensions * tibia_length dimensions)
      / (lit 2 * femur_length dimensions * reach_distance) in
    let cos_femur_offset :=
      std_max (lit (-1)) (std_min (lit 1) cos_femur_offset) in
    let femur_offset_angle := num_acos cos_femur_offset in
    let femur_angle_rad := reach_angle + femur_offset_angle in
    let angles_coxa := rad_to_deg coxa_angle_rad in
    let angles_femur := rad_to_deg femur_angle_rad in
    let angles_tibia := lit 180 - rad_to_deg tibia_angle_rad in
    Ok {| coxa := clamp_angle (angles_coxa + lit 90);
          femur := clamp_angle (angles_femur + lit 90);
          tibia := clamp_angle angles_tibia |}.

Definition solve_fk (angles : JointAngles T) (dimensions : LegDimensions T)
  : Position3D T :=
  let coxa_rad := deg_to_rad (coxa angles - lit 90) in
  let femur_rad := deg_to_rad (femur angles - lit 90) in
  let tibia_interior_rad := deg_to_rad (lit 180 - tibia angles) in
  let coxa_x := coxa_length dimensions * num_cos coxa_rad in
  let coxa_y := coxa_length dimensions * num_sin coxa_rad in
  let femur_horizontal := femur_length dimensions * num_cos femur_rad in
  let femur_vertical := femur_length dimensions * num_sin femur_rad in
  let tibia_abs_angle := femur_rad + tibia_interior_rad - m_pi in
  let tibia_horizontal := tibia_length dimensions * num_cos tibia_abs_angle in
  let tibia_vertical := tibia_length dimensions * num_sin tibia_abs_angle in
  let total_horizontal := femur_horizontal + tibia_horizontal in
  {| x := coxa_x + total_horizontal * num_cos coxa_rad;
     y := coxa_y + total_horizontal * num_sin coxa_rad;
     z := femur_vertical + tibia_vertical |}.

(** [try { solve_ik(...); return true; } catch (const std::runtime_error&)
    { return false; }] *)
Definition is_reachable (target : Position3D T) (dimensions : LegDimensions T)
  : bool :=
  match solve_ik target dimensions with
  | Ok _ => true
  | Err _ => false
  end.

Definition max_reach_at_height (z_height : T) (dimensions : LegDimensions T)
  : T :=
  let max_leg_length := femur_length dimensions + tibia_length dimensions in
  let horizontal_reach :=
    num_sqrt (max_leg_length * max_leg_length - z_height * z_height) in
  horizontal_reach + coxa_length dimensions.

(** *** The local variables of [solve_ik], by name

    The properties below speak of the values [solve_ik] computes on the way;
    these definitions give them names, and [solve_ik_eq] ties them to the
    body. *)

Definition xy_distance (target : Position3D T) : T :=
  num_sqrt (x target * x target + y target * y target).

Definition horizontal_reach (target : Position3D T) (dimensions : LegDimensions T)
  : T :=
  xy_distance target - coxa_length dimensions.

Definition reach_distance (target : Position3D T) (dimensions : LegDimensions T)
  : T :=
  num_sqrt (horizontal_reach target dimensions * horizontal_reach target dimensions
            + z target * z target).

Definition max_reach (dimensions : LegDimensions T) : T :=
  femur_length dimensions + tibia_length dimensions.

Definition min_reach (dimensions : LegDimensions T) : T :=
  num_fabs (femur_length dimensions - tibia_length dimensions).

(** Lines 96-106: the interior angle at the knee, in radians. *)
Definition tibia_angle_rad (target : Position3D T) (dimensions : LegDimensions T)
  : T :=
  let cos_tibia :=
    (femur_length dimensions * femur_length dimensions
     + tibia_length dimensions * tibia_length dimensions
     - reach_distance target dimensions * reach_distance target dimensions)
    / (lit 2 * femur_length dimensions * tibia_length dimensions) in
  num_acos (std_max (lit (-1)) (std_min (lit 1) cos_tibia)).

(** Lines 108-121: the elevation of the femur, in radians. *)
Definition femur_angle_rad (target : Position3D T) (dimensions : LegDimensions T)
  : T :=
  let reach_angle := num_atan2 (z target) (horizontal_reach target dimensions) in
  let cos_femur_offset :=
    (femur_length dimensions * femur_length dimensions
     + reach_distance target dimensions * reach_distance target dimensions
     - tibia_length dimensions * tibia_length dimensions)
    / (lit 2 * femur_length dimensions * reach_distance target dimensions) in
  reach_angle + num_acos (std_max (lit (-1)) (std_min (lit 1) cos_femur_offset)).

(** The angles as they stand before line 131, where each is clamped: the
    values in degrees with the +90 offset of coxa and femur applied. *)
Definition solved_angles (target : Position3D T) (dimensions : LegDimensions T)
  : JointAngles T :=
  {| coxa := rad_to_deg (num_atan2 (y target) (x target)) + lit 90;
     femur := rad_to_deg (femur_angle_rad target dimensions) + lit 90;
     tibia := lit 180 - rad_to_deg (tibia_angle_rad target dimensions) |}.

Definition clamp_angles (a : JointAngles T) : JointAngles T :=
  {| coxa := clamp_angle (coxa a);
     femur := clamp_angle (femur a);
     tibia := clamp_angle (tibia a) |}.

(** *** The local variables of [solve_fk], by name

    The angles in radians that [solve_fk] passes to [sin] and [cos];
    [solve_fk_eq] ties them to the body. *)

(** Lines 150-152: the offsets of the servo conventions undone. *)
Definition coxa_rad (angles : JointAngles T) : T :=
  deg_to_rad (coxa angles - lit 90).

Definition femur_rad (angles : JointAngles T) : T :=
  deg_to_rad (femur angles - lit 90).

Definition tibia_interior_rad (angles : JointAngles T) : T :=
  deg_to_rad (lit 180 - tibia angles).

(** Line 163: the tibia's angle to the ground. *)
Definition tibia_abs_angle (angles : JointAngles T) : T :=
  femur_rad angles + tibia_interior_rad angles - m_pi.

End Solver.

(** ** Exact arithmetic: the real numbers *)

Module Exact.

Local Open Scope R_scope.

Definition Rltb (a b : R) : bool := if Rlt_dec a b then true else false.

(** [atan2] of C (7.12.4.4, F.10.1.4) on the reals: the angle of the point
    [(x, y)] in (-PI, PI], and 0 at the origin. *)
Definition atan2 (y x : R) : R :=
  if Rlt_dec 0 x then atan (y / x)
  else if Rlt_dec x 0 then
    if Rle_dec 0 y then atan (y / x) + PI else atan (y / x) - PI
  else if Rlt_dec 0 y then PI / 2
  else if Rlt_dec y 0 then - (PI / 2)
  else 0.

#[export] Instance real_scalar : Scalar R := {|
  lit := IZR;
  m_pi := PI;
  num_add := Rplus;
  num_sub := Rminus;
  num_mul := Rmult;
  num_div := Rdiv;
  num_lt := Rltb;
  num_sqrt := sqrt;
  num_fabs := Rabs;
  num_atan2 := atan2;
  num_acos := acos;
  num_sin := sin;
  num_cos := cos
|}.

Definition in_servo_range (a : JointAngles R) : Prop :=
  0 <= coxa a <= 180 /\ 0 <= femur a <= 180 /\ 0 <= tibia a <= 180.

(** The scenarios of the specification (section 8). *)
Definition scenario_dimensions : LegDimensions R :=
  {| coxa_length := 20; femur_length := 60; tibia_length := 80 |}.

Definition scenario_target : Position3D R := {| x := 100; y := 0; z := 0 |}.

End Exact.

(** ** IEEE-754 binary64: the primitive floats

    Every operation rounds once, to nearest-even, as a [double] on SSE2
    does: no extended precision and no fused multiply-add. *)

Module Binary64.

Import Stdlib.Floats.Floats.

(** The functions of [<cmath>] that the primitive floats do not provide.
    They are the platform's; nothing is assumed of them here. *)
Record Libm : Type := mkLibm {
  libm_atan2 : float -> float -> float;
  libm_acos : float -> float;
  libm_sin : float -> float;
  libm_cos : float -> float
}.

(** A literal with an integer value of small magnitude, exactly. *)
Definition float_of_Z (n : Z) : float :=
  match n with
  | Z0 => PrimFloat.zero
  | Zpos _ => PrimFloat.of_uint63 (Uint63.of_Z n)
  | Zneg p => PrimFloat.opp (PrimFloat.of_uint63 (Uint63.of_Z (Zpos p)))
  end.

(** [M_PI] of glibc's [<math.h>], 3.14159265358979323846, as a double. *)
Definition M_PI : float := 0x1.921fb54442d18p+1%float.

#[export] Instance float_scalar (L : Libm) : Scalar float := {|
  lit := float_of_Z;
  m_pi := M_PI;
  num_add := PrimFloat.add;
  num_sub := PrimFloat.sub;
  num_mul := PrimFloat.mul;
  num_div := PrimFloat.div;
  num_lt := PrimFloat.ltb;
  num_sqrt := PrimFloat.sqrt;
  num_fabs := PrimFloat.abs;
  num_atan2 := libm_atan2 L;
  num_acos := libm_acos L;
  num_sin := libm_sin L;
  num_cos := libm_cos L
|}.

(** [a] is an ordinary number within [lo, hi]; false on a NaN. *)
Definition within (lo hi a : float) : bool :=
  PrimFloat.leb lo a && PrimFloat.leb a hi.

Definition in_servo_range (a : JointAngles float) : bool :=
  within 0 180 (coxa a) && within 0 180 (femur a) && within 0 180 (tibia a).

(** [max_reach_at_height] calls nothing of [libm]: where a [Libm] has to be
    named for it, this one, which answers NaN everywhere, will do. *)
Definition libm_unused : Libm :=
  {| libm_atan2 := fun _ _ => nan;
     libm_acos := fun _ => nan;
     libm_sin := fun _ => nan;
     libm_cos := fun _ => nan |}.

(** The argument of the square root in [max_reach_at_height] (line 204). *)
Definition radicand (z_height : float) (dimensions : LegDimensions float)
  : float :=
  let max_leg_length :=
    PrimFloat.add (femur_length dimensions) (tibia_length dimensions) in
  PrimFloat.sub (PrimFloat.mul max_leg_length max_leg_length)
                (PrimFloat.mul z_height z_height).

(** *** Sample values of [libm]

    [atan2], [acos], [sin] and [cos] at the arguments that the sample targets
    below lead to.  Each value is the double nearest to the exact value of
    the function; it is also what glibc 2.36 returns on x86-64.  Among them
    are the values that C fixes (Annex F.10.1): [atan2 (+0, x)] is [+0] for
    [x > 0], [acos 1] is [+0], [sin (+0)] is [+0], [cos (+0)] is [1], and
    the sine and the cosine of a NaN and of an infinity are a NaN. *)

Local Open Scope list_scope.
Local Open Scope float_scope.

Definition atan2_values : list (float * float * float) :=
  ((0, 130, 0)
   :: (0, 100, 0)
   :: (0, 80, 0)
   :: (40, 60, 0x1.2d0ead6066395p-1)
   :: ((-50), 0x1.50e361579b07p+5, (-0x1.bdde3863ad661p-1))
   :: ((-30), 80, (-0x1.6f61941e4def1p-2))
   :: ((-40), 0x1.05c2992d999ccp+6, (-0x1.18e8655b230c4p-1))
   :: (0, 0x1.18c2ffffffff8p+21, 0)
   :: (0, 0x1.e847ffffffffp+20, 0)
   :: nil).

Definition acos_values : list (float * float) :=
  (((-1), 0x1.921fb54442d18p+1)
   :: (1, 0)
   :: (0x1.8p-2, 0x1.2fb7e18d1d464p+0)
   :: (0x1.29a3fbee6782bp-3, 0x1.6cc95bd615d2ap+0)
   :: (0x1.4eb2c8dffa43bp-1, 0x1.b7760eb26fd06p-1)
   :: (0x1.b735f8b92c62ep-2, 0x1.20a408d06ffc5p+0)
   :: (0x1.56f3179faedb4p-2, 0x1.3ab268d025e81p+0)
   :: ((-0x1.fffffffffffbcp-1), 0x1.921fb43c61db2p+1)
   :: (0x1.fffffffffffedp-1, 0x1.16f8334644df9p-24)
   :: nil).

Definition sin_values : list (float * float) :=
  ((0, 0)
   :: (0x1.2fb7e18d1d464p+0, 0x1.daa2fefaae1d8p-1)
   :: ((-0x1.899f4edc962dp-1), (-0x1.63fa3f3c0296p-1))
   :: (0x1.2d0ead6066395p-1, 0x1.1c01aa03be895p-1)
   :: ((-0x1.9a0a6c4f656aep-7), (-0x1.9a07af018e1f8p-7))
   :: ((-0x1.baaa238b0e9b2p+0), (-0x1.f997e143f9c77p-1))
   :: ((-0x1.6f61941e4def2p-2), (-0x1.678ce749eca7dp-2))
   :: (0x1.5c7c6c4528c3dp-1, 0x1.42320a80d30c3p-1)
   :: ((-0x1.555d2b958144cp+0), (-0x1.f1a587e09e492p-1))
   :: (0x1.16f8333f39895p-24, 0x1.16f8333f39892p-24)
   :: ((-0x1.f19373p-25), (-0x1.f19372ffffffbp-25))
   :: (nan, nan)
   :: (infinity, nan)
   :: nil).

Definition cos_values : list (float * float) :=
  ((0, 1)
   :: (0x1.2fb7e18d1d464p+0, 0x1.7fffffffffffep-2)
   :: ((-0x1.899f4edc962dp-1), 0x1.7000000000002p-1)
   :: (0x1.2d0ead6066395p-1, 0x1.aa027f059dce1p-1)
   :: ((-0x1.9a0a6c4f656aep-7), 0x1.fff5bcf3392c2p-1)
   :: ((-0x1.baaa238b0e9b2p+0), (-0x1.42f8d872c0b51p-3))
   :: ((-0x1.6f61941e4def2p-2), 0x1.df6689b7e634fp-1)
   :: (0x1.5c7c6c4528c3dp-1, 0x1.8de98283dd19cp-1)
   :: ((-0x1.555d2b958144cp+0), 0x1.e1874ccb7304ep-3)
   :: (0x1.16f8333f39895p-24, 0x1.fffffffffffedp-1)
   :: ((-0x1.f19373p-25), 0x1.ffffffffffff1p-1)
   :: (nan, nan)
   :: (infinity, nan)
   :: nil).

Fixpoint lookup (table : list (float * float)) (a : float) : float :=
  match table with
  | nil => nan
  | (k, v) :: rest => if Leibniz.eqb a k then v else lookup rest a
  end.

Fixpoint lookup2 (table : list (float * float * float)) (a b : float)
  : float :=
  match table with
  | nil => nan
  | (k1, k2, v) :: rest =>
      if Leibniz.eqb a k1 && Leibniz.eqb b k2 then v else lookup2 rest a b
  end.

(** A [Libm] that answers from the tables, and a NaN at any other argument.
    It stands for the platform's [libm] where no other argument is
    consulted. *)
Definition libm_tabulated : Libm :=
  {| libm_atan2 := lookup2 atan2_values;
     libm_acos := lookup acos_values;
     libm_sin := lookup sin_values;
     libm_cos := lookup cos_values |}.






(** The legs and the targets of the instances: the two scenarios of the
    specification (section 8), a foot on the ground beside the body and one
    lifted in the swing, a leg a thousand times larger, and legs whose
    lengths overflow when squared or added. *)
Definition leg_30_50_50 : LegDimensions float :=
  {| coxa_length := 30; femur_length := 50; tibia_length := 50 |}.




Definition leg_overflowing : LegDimensions float :=
  {| coxa_length := 30; femur_length := 0x1p+1023;
     tibia_length := 0x1p+1023 |}.


Definition target_boundary : Position3D float :=
  {| x := 130; y := 0; z := 0 |}.


Definition target_stance : Position3D float :=
  {| x := 60; y := 40; z := -50 |}.



(** The leg stretched out along the x axis. *)
Definition angles_stretched : JointAngles float :=
  {| coxa := 90; femur := 90; tibia := 0 |}.

(** [a] is a number: neither a NaN nor an infinity. *)
Definition is_number (a : float) : bool :=
  PrimFloat.ltb (PrimFloat.abs a) infinity.

(** [a] is a number within [-1, 1]: what [sin] and [cos] return at an angle
    that is a number. *)
Definition unit_range (a : float) : bool :=
  PrimFloat.leb (PrimFloat.abs a) 1.

(** [libm] returns a value within [-1, 1] at each of the six calls of
    [solve_fk] (lines 155-165, 170-172). *)
Definition cos_sin_in_unit_range (L : Libm) (angles : JointAngles float)
  : bool :=
  unit_range (libm_cos L (coxa_rad (num := float_scalar L) angles))
  && unit_range (libm_sin L (coxa_rad (num := float_scalar L) angles))
  && unit_range (libm_cos L (femur_rad (num := float_scalar L) angles))
  && unit_range (libm_sin L (femur_rad (num := float_scalar L) angles))
  && unit_range (libm_cos L (tibia_abs_angle (num := float_scalar L) angles))
  && unit_range (libm_sin L (tibia_abs_angle (num := float_scalar L) angles)).

(** [|coxa| + (|femur| + |tibia|)], each sum rounded. *)
Definition total_length (d : LegDimensions float) : float :=
  PrimFloat.add (PrimFloat.abs (coxa_length d))
    (PrimFloat.add (PrimFloat.abs (femur_length d))
                   (PrimFloat.abs (tibia_length d))).

(** The angles [solve_ik] returns for the stance position, with the
    tabulated [libm]. *)
Definition angles_stance : JointAngles float :=
  clamp_angles (num := float_scalar libm_tabulated)
    (solved_angles (num := float_scalar libm_tabulated)
       target_stance leg_30_50_50).

End Binary64.

(** * The servo driver: [servo_driver.c]

    The consumer of the joint angles.  Its integers are C integers of fixed
    width ([uint8_t], [uint16_t], [int]) and are modelled as [Z], with the
    wrap-around written out where the source relies on it; an [int] or a
    [uint16_t] converted to [double] is [lit] of its value.  The file keeps
    one global, [i2c_handle], and prints; both are threaded through a state,
    the printed lines as a list of [Output]s in the order of the calls.

    A conversion of a [double] to an unsigned integer type is undefined when
    the value does not fit (C11 6.3.1.4), and so is a read past the end of an
    array: a run that meets either has no result, [None]. *)

(** [round] of [<math.h>], to the nearest integer and half away from zero,
    read as an integer; [None] on a NaN or an infinity. *)
Class Rounding (T : Type) : Type := {
  num_round : T -> option Z
}.

Inductive Output (T : Type) : Type :=
| OutInit (i2c_bus i2c_addr pwm_freq : Z)                      (* line 66 *)
| OutPrescale (prescale : Z)                                   (* line 76 *)
| OutSetAngle (channel : Z) (angle_deg : T) (pulse_us pwm_value : Z)
                                                               (* line 165 *)
| OutOff (channel : Z)                                         (* line 226 *)
| OutClose                                                     (* line 263 *)
| ErrNotInitialized                                            (* lines 150, 217 *)
| ErrInvalidChannel (channel : Z).                             (* lines 155, 222 *)

Arguments OutInit {T} i2c_bus i2c_addr pwm_freq.
Arguments OutPrescale {T} prescale.
Arguments OutOff {T} channel.
Arguments OutClose {T}.
Arguments ErrNotInitialized {T}.
Arguments ErrInvalidChannel {T} channel.

Record Driver (T : Type) : Type := mkDriver {
  i2c_handle : Z;
  output : list (Output T)
}.

(** A function of the driver: from the state before to a result and the
    state after, or to nothing when its behaviour is undefined. *)
Definition Run (T A : Type) : Type := Driver T -> option (A * Driver T).

Definition run_ret {T A : Type} (a : A) : Run T A := fun s => Some (a, s).

Definition run_bind {T A B : Type} (m : Run T A) (k : A -> Run T B) : Run T B :=
  fun s =>
    match m s with
    | Some (a, s') => k a s'
    | None => None
    end.

Definition run_lift {T A : Type} (o : option A) : Run T A :=
  fun s =>
    match o with
    | Some a => Some (a, s)
    | None => None
    end.

Definition get_handle {T : Type} : Run T Z := fun s => Some (i2c_handle s, s).

Definition set_handle {T : Type} (h : Z) : Run T unit :=
  fun s => Some (tt, {| i2c_handle := h; output := output s |}).

Definition print {T : Type} (o : Output T) : Run T unit :=
  fun s => Some (tt, {| i2c_handle := i2c_handle s;
                        output := (output s ++ o :: nil)%list |}).

(** The state after one more line. *)
Definition printed {T : Type} (s : Driver T) (o : Output T) : Driver T :=
  {| i2c_handle := i2c_handle s; output := (output s ++ o :: nil)%list |}.

(** The state after the lines [os], in this order. *)
Definition printed_all {T : Type} (s : Driver T) (os : list (Output T))
  : Driver T :=
  {| i2c_handle := i2c_handle s; output := (output s ++ os)%list |}.

(** What the loop of [servo_off_all] prints for the channels
    [c, c + 1, ...], [n] of them. *)
Fixpoint off_lines {T : Type} (initialized : bool) (n : nat) (c : Z)
  : list (Output T) :=
  match n with
  | O => nil
  | S n' =>
      (if initialized
       then (if (15 <? c)%Z then ErrInvalidChannel c else OutOff c)
       else ErrNotInitialized)
      :: off_lines initialized n' (c + 1)
  end.

Declare Scope run_scope.
Delimit Scope run_scope with run.
Notation "x <- m ;; k" := (run_bind m (fun x => k))
  (at level 61, m at next level, right associativity) : run_scope.
Notation "m ;; k" := (run_bind m (fun _ => k))
  (at level 61, right associativity) : run_scope.

(** The program starts with [i2c_handle = -1] and nothing printed. *)
Definition driver_start {T : Type} : Driver T :=
  {| i2c_handle := -1; output := nil |}.

Section ServoDriver.

Context {T : Type} {num : Scalar T} {rnd : Rounding T}.

Local Open Scope Z_scope.
Local Open Scope run_scope.

(** [(uint8_t) round (v)] and [(uint16_t) round (v)]: the rounded value when
    it is one of [0 .. max]. *)
Definition round_to_unsigned (max : Z) (v : T) : option Z :=
  match num_round v with
  | Some n => if (0 <=? n) && (n <=? max) then Some n else None
  | None => None
  end.

Definition angle_to_pulse (angle_deg : T) (min_pulse max_pulse : Z) : option Z :=
  let angle_deg := if num_lt angle_deg (lit 0) then lit 0 else angle_deg in
  let angle_deg := if num_lt (lit 180) angle_deg then lit 180 else angle_deg in
  let pulse :=
    num_add (lit min_pulse)
            (num_mul (num_div angle_deg (lit 180)) (lit (max_pulse - min_pulse))) in
  round_to_unsigned 65535 pulse.

Definition pulse_to_register (pulse_us pwm_freq : Z) : option Z :=
  let period_us := num_div (lit 1000000) (lit pwm_freq) in
  let duty_cycle := num_div (lit pulse_us) period_us in
  match round_to_unsigned 65535 (num_mul duty_cycle (lit 4096)) with
  | Some register_value =>
      Some (if 4095 <? register_value then 4095 else register_value)
  | None => None
  end.

(** Lines 73-74: [(uint8_t) round (...) - 1], stored in a [uint8_t]. *)
Definition init_prescale (pwm_freq : Z) : option Z :=
  match round_to_unsigned 255
          (num_div (lit 25000000) (lit (4096 * pwm_freq))) with
  | Some r => Some ((r - 1) mod 256)
  | None => None
  end.

Definition servo_driver_init (i2c_bus i2c_addr pwm_freq : Z) : Run T Z :=
  print (OutInit i2c_bus i2c_addr pwm_freq) ;;
  set_handle 1 ;;
  prescale <- run_lift (init_prescale pwm_freq) ;;
  print (OutPrescale prescale) ;;
  run_ret 0.

Definition servo_set_angle (channel : Z) (angle_deg : T)
  (min_pulse max_pulse pwm_freq : Z) : Run T Z :=
  h <- get_handle ;;
  if h <? 0 then print ErrNotInitialized ;; run_ret (-1)
  else if 15 <? channel then print (ErrInvalidChannel channel) ;; run_ret (-1)
  else
    pulse_us <- run_lift (angle_to_pulse angle_deg min_pulse max_pulse) ;;
    pwm_value <- run_lift (pulse_to_register pulse_us pwm_freq) ;;
    print (OutSetAngle channel angle_deg pulse_us pwm_value) ;;
    run_ret 0.

(** The loop of [servo_set_multiple], with [n] rounds to go from index [i]:
    [channels[i]] and [angles[i]] are read, and a failing [servo_set_angle]
    ends it. *)
Fixpoint set_multiple_from (n i : nat) (channels : list Z) (angles : list T)
  (min_pulse max_pulse pwm_freq : Z) : Run T Z :=
  match n with
  | O => run_ret 0
  | S n' =>
      channel <- run_lift (List.nth_error channels i) ;;
      angle <- run_lift (List.nth_error angles i) ;;
      result <- servo_set_angle channel angle min_pulse max_pulse pwm_freq ;;
      if negb (result =? 0) then run_ret (-1)
      else set_multiple_from n' (S i) channels angles
             min_pulse max_pulse pwm_freq
  end.

Definition servo_set_multiple (channels : list Z) (angles : list T) (count : Z)
  (min_pulse max_pulse pwm_freq : Z) : Run T Z :=
  set_multiple_from (Z.to_nat count) 0 channels angles
    min_pulse max_pulse pwm_freq.

Definition servo_off (channel : Z) : Run T Z :=
  h <- get_handle ;;
  if h <? 0 then print ErrNotInitialized ;; run_ret (-1)
  else if 15 <? channel then print (ErrInvalidChannel channel) ;; run_ret (-1)
  else print (OutOff channel) ;; run_ret 0.

(** The loop of [servo_off_all], with [n] channels to go from [channel]. *)
Fixpoint off_all_from (n : nat) (channel : Z) : Run T unit :=
  match n with
  | O => run_ret tt
  | S n' => servo_off channel ;; off_all_from n' (channel + 1)
  end.

Definition servo_off_all : Run T Z := off_all_from 16 0 ;; run_ret 0.

Definition servo_driver_close : Run T unit :=
  h <- get_handle ;;
  if 0 <=? h then print OutClose ;; set_handle (-1) else run_ret tt.

Definition servo_driver_is_initialized : Run T Z :=
  h <- get_handle ;;
  run_ret (if 0 <=? h then 1 else 0).

(** *** Sequences of calls

    A client of the driver makes calls one after the other; [run_calls]
    runs them from a state and gives the state at the end. *)

Inductive Call : Type :=
| CallInit (i2c_bus i2c_addr pwm_freq : Z)
| CallSetAngle (channel : Z) (angle_deg : T) (min_pulse max_pulse pwm_freq : Z)
| CallSetMultiple (channels : list Z) (angles : list T) (count : Z)
    (min_pulse max_pulse pwm_freq : Z)
| CallOff (channel : Z)
| CallOffAll
| CallClose
| CallIsInitialized.

Definition run_call (c : Call) : Run T Z :=
  match c with
  | CallInit i2c_bus i2c_addr pwm_freq =>
      servo_driver_init i2c_bus i2c_addr pwm_freq
  | CallSetAngle channel angle_deg min_pulse max_pulse pwm_freq =>
      servo_set_angle channel angle_deg min_pulse max_pulse pwm_freq
  | CallSetMultiple channels angles count min_pulse max_pulse pwm_freq =>
      servo_set_multiple channels angles count min_pulse max_pulse pwm_freq
  | CallOff channel => servo_off channel
  | CallOffAll => servo_off_all
  | CallClose => servo_driver_close ;; run_ret 0
  | CallIsInitialized => servo_driver_is_initialized
  end.

Fixpoint run_calls (cs : list Call) (s : Driver T) : option (Driver T) :=
  match cs with
  | nil => Some s
  | cons c cs' =>
      match run_call c s with
      | Some (_, s') => run_calls cs' s'
      | None => None
      end
  end.

(** Whether the last of the [servo_driver_init] and [servo_driver_close]
    calls of [cs] is an init; [b] when there is none. *)
Fixpoint initialized_after (cs : list Call) (b : bool) : bool :=
  match cs with
  | nil => b
  | cons (CallInit _ _ _) cs' => initialized_after cs' true
  | cons CallClose cs' => initialized_after cs' false
  | cons _ cs' => initialized_after cs' b
  end.

End ServoDriver.

(** *** Rounding, exactly and on doubles *)

Module ExactRounding.

Local Open Scope R_scope.

Definition round_half_away (v : R) : Z :=
  if Rle_dec 0 v then Int_part (v + / 2) else (- Int_part (- v + / 2))%Z.

#[export] Instance real_rounding : Rounding R := {|
  num_round := fun v => Some (round_half_away v)
|}.

(** The angle after the two [if]s of [angle_to_pulse] (lines 105-106). *)
Definition servo_clamped (a : R) : R :=
  let a := if Exact.Rltb a 0 then 0 else a in
  if Exact.Rltb 180 a then 180 else a.

End ExactRounding.

Module Binary64Rounding.

Import Stdlib.Floats.Floats.

(** A finite double is [m * 2^e]: its magnitude rounded to an integer, half
    up. *)
Definition round_magnitude (m : positive) (e : Z) : Z :=
  match e with
  | Z0 => Zpos m
  | Zpos _ => Z.shiftl (Zpos m) e
  | Zneg k => Z.shiftr (Zpos m + Z.shiftl 1 (Zpos k - 1)) (Zpos k)
  end.

Definition float_round (v : float) : option Z :=
  match Prim2SF v with
  | S754_zero _ => Some 0%Z
  | S754_finite s m e =>
      Some (if s then (- round_magnitude m e)%Z else round_magnitude m e)
  | S754_infinity _ => None
  | S754_nan => None
  end.

#[export] Instance float_rounding : Rounding float := {|
  num_round := float_round
|}.

(** [P] on each of the [n] integers from [c] on. *)
Fixpoint forall_from (n : nat) (c : Z) (P : Z -> bool) : bool :=
  match n with
  | O => true
  | S n' => P c && forall_from n' (c + 1) P
  end.

(** [round (25000000.0 / (4096 * pwm_freq)) - 1] in integers, as a
    [uint8_t]: the quotient rounded half up, less one, modulo 256. *)
Definition prescale_formula (pwm_freq : Z) : Z :=
  (((50000000 + 4096 * pwm_freq) / (8192 * pwm_freq) - 1) mod 256)%Z.

(** The prescaler computed on doubles is the one of [prescale_formula] from
    24 Hz on, and has no value below. *)
Definition prescale_agrees (L : Binary64.Libm) (pwm_freq : Z) : bool :=
  match init_prescale (num := Binary64.float_scalar L) pwm_freq with
  | Some p => (24 <=? pwm_freq)%Z && (p =? prescale_formula pwm_freq)%Z
  | None => (pwm_freq <? 24)%Z
  end.

(** [round (pulse_us / (1000000.0 / pwm_freq) * 4096)] in integers, capped
    at 4095. *)
Definition register_formula (pulse_us pwm_freq : Z) : Z :=
  Z.min 4095 ((pulse_us * pwm_freq * 8192 + 1000000) / 2000000).

Definition register_agrees (L : Binary64.Libm) (pwm_freq pulse_us : Z) : bool :=
  match pulse_to_register (num := Binary64.float_scalar L) pulse_us pwm_freq with
  | Some r => (r =? register_formula pulse_us pwm_freq)%Z
  | None => false
  end.

End Binary64Rounding.

(** ** Rounding to nearest, in closed form

    The arithmetic of the primitive floats is specified by [SpecFloat]:
    an operation computes an integer mantissa and an exponent and rounds
    them with [binary_round_aux].  The definitions below say what that
    rounding returns, on integers: they serve the proofs that a rounded sum
    or product keeps within the bound of the exact one. *)

Module RoundToNearest.

Import Stdlib.Floats.Floats.
Local Open Scope Z_scope.

(** What [shr] keeps while it shifts [m0] right by [k] bits: the quotient,
    and in the two flags the place of the remainder against one half. *)
Definition shr_inv (m0 k : Z) (mrs : shr_record) : Prop :=
  0 <= shr_m mrs
  /\ 0 <= m0 - 2 ^ k * shr_m mrs < 2 ^ k
  /\ loc_of_shr_record mrs
     = if m0 - 2 ^ k * shr_m mrs =? 0 then loc_Exact
       else loc_Inexact (2 * (m0 - 2 ^ k * shr_m mrs) ?= 2 ^ k).

(** [X / 2 ^ k] rounded to the nearest integer, a tie to the even one. *)
Definition rne (X k : Z) : Z :=
  let q := X / 2 ^ k in
  let rem := X - 2 ^ k * q in
  if rem =? 0 then q
  else match 2 * rem ?= 2 ^ k with
       | Lt => q
       | Eq => if Z.even q then q else q + 1
       | Gt => q + 1
       end.

(** Values are counted in units of [2 ^ unit_exp]: every product of two
    doubles is a whole number of them. *)
Definition unit_exp : Z := -2148.

(** The double with mantissa [q] at exponent [c]: a zero, the next binade
    when the mantissa has carried, an infinity beyond the largest
    exponent. *)
Definition shape (q c : Z) : spec_float :=
  if q =? 0 then S754_zero false
  else if q <? 2 ^ 53 then
    if c <=? 971 then S754_finite false (Z.to_pos q) c
    else S754_infinity false
  else
    if c + 1 <=? 971 then S754_finite false (Z.to_pos (2 ^ 52)) (c + 1)
    else S754_infinity false.

(** The double nearest to [X] units, for [X] positive. *)
Definition Rnd (X : Z) : spec_float :=
  let c := fexp prec emax (Zdigits2 X + unit_exp) in
  let q := rne X (c - unit_exp) in
  if q =? 0 then S754_zero false
  else if q <? 2 ^ 53 then
    if c <=? 971 then S754_finite false (Z.to_pos q) c
    else S754_infinity false
  else
    if c + 1 <=? 971 then S754_finite false (Z.to_pos (2 ^ 52)) (c + 1)
    else S754_infinity false.

Definition nonneg_shape (x : spec_float) : Prop :=
  match x with
  | S754_zero false | S754_finite false _ _ | S754_infinity false => True
  | _ => False
  end.

(** The double nearest to [N] units, of either sign. *)
Definition RndS (N : Z) : spec_float :=
  match N with
  | Z0 => S754_zero false
  | Zpos _ => Rnd N
  | Zneg p => SFopp (Rnd (Zpos p))
  end.

(** Doubles that are zero or finite, and their values in units of
    [2 ^ unit_exp]. *)
Definition finite_or_zero (x : spec_float) : bool :=
  match x with
  | S754_zero _ | S754_finite _ _ _ => true
  | _ => false
  end.

Definition sval (x : spec_float) : Z :=
  match x with
  | S754_finite s m e => cond_Zopp s (Zpos m * 2 ^ (e - unit_exp))
  | _ => 0
  end.

(** Equal, or zeros of either sign. *)
Definition same (x y : spec_float) : Prop :=
  x = y \/ (exists s s', x = S754_zero s /\ y = S754_zero s').


(** The double 1.0. *)
Definition spec_one : spec_float := S754_finite false 4503599627370496 (-52).

End RoundToNearest.

(** * Properties *)

(** ** Reachability query, for every arithmetic *)

Section Reachability.

Context {T : Type} {num : Scalar T}.

(** [solve_ik], read through the names of its local variables. *)
Lemma solve_ik_eq (target : Position3D T) (dimensions : LegDimensions T) :
  solve_ik target dimensions =
  if num_lt (max_reach dimensions) (reach_distance target dimensions)
  then Err TooFar
  else if num_lt (reach_distance target dimensions) (min_reach dimensions)
  then Err TooClose
  else Ok (clamp_angles (solved_angles target dimensions)).
Proof. reflexivity. Qed.

(** [solve_fk], read through the names of its local variables. *)
Lemma solve_fk_eq (angles : JointAngles T) (dimensions : LegDimensions T) :
  solve_fk angles dimensions =
  let total_horizontal :=
    (femur_length dimensions * num_cos (femur_rad angles)
     + tibia_length dimensions * num_cos (tibia_abs_angle angles))%num in
  {| x := (coxa_length dimensions * num_cos (coxa_rad angles)
           + total_horizontal * num_cos (coxa_rad angles))%num;
     y := (coxa_length dimensions * num_sin (coxa_rad angles)
           + total_horizontal * num_sin (coxa_rad angles))%num;
     z := (femur_length dimensions * num_sin (femur_rad angles)
           + tibia_length dimensions * num_sin (tibia_abs_angle angles))%num |}.
Proof. reflexivity. Qed.

Lemma solve_ik_too_far_iff (target : Position3D T) (dimensions : LegDimensions T) :
  solve_ik target dimensions = Err TooFar
  <-> num_lt (max_reach dimensions) (reach_distance target dimensions) = true.
Proof.
  rewrite solve_ik_eq.
  destruct (num_lt (max_reach dimensions) (reach_distance target dimensions)).
  - now split.
  - destruct (num_lt (reach_distance target dimensions) (min_reach dimensions));
      split; discriminate.
Qed.

Lemma solve_ik_too_close_iff (target : Position3D T) (dimensions : LegDimensions T) :
  solve_ik target dimensions = Err TooClose
  <-> num_lt (max_reach dimensions) (reach_distance target dimensions) = false
      /\ num_lt (reach_distance target dimensions) (min_reach dimensions) = true.
Proof.
  rewrite solve_ik_eq.
  destruct (num_lt (max_reach dimensions) (reach_distance target dimensions)).
  - split; [discriminate | intros [H _]; discriminate].
  - destruct (num_lt (reach_distance target dimensions) (min_reach dimensions)).
    + now split.
    + split; [discriminate | intros [_ H]; discriminate].
Qed.

Lemma solve_ik_ok_iff (target : Position3D T) (dimensions : LegDimensions T)
  (angles : JointAngles T) :
  solve_ik target dimensions = Ok angles
  <-> num_lt (max_reach dimensions) (reach_distance target dimensions) = false
      /\ num_lt (reach_distance target dimensions) (min_reach dimensions) = false
      /\ angles = clamp_angles (solved_angles target dimensions).
Proof.
  rewrite solve_ik_eq.
  destruct (num_lt (max_reach dimensions) (reach_distance target dimensions)).
  - split; [discriminate | intros [H _]; discriminate].
  - destruct (num_lt (reach_distance target dimensions) (min_reach dimensions)).
    + split; [discriminate | intros [_ [H _]]; discriminate].
    + split.
      * intros H; injection H as <-. now repeat split.
      * intros [_ [_ ->]]. reflexivity.
Qed.

Lemma solve_ik_cases (target : Position3D T) (dimensions : LegDimensions T) :
  solve_ik target dimensions = Err TooFar
  \/ solve_ik target dimensions = Err TooClose
  \/ solve_ik target dimensions
     = Ok (clamp_angles (solved_angles target dimensions)).
Proof.
  rewrite solve_ik_eq.
  destruct (num_lt (max_reach dimensions) (reach_distance target dimensions)).
  - now left.
  - destruct (num_lt (reach_distance target dimensions) (min_reach dimensions)).
    + right; now left.
    + right; now right.
Qed.

(** C6.  [is_reachable] is a total boolean function; it answers [true]
    exactly when [solve_ik] returns angles, and [false] exactly when
    [solve_ik] raises one of its two unreachable errors. *)
Theorem is_reachable_iff_solve_ik
  (target : Position3D T) (dimensions : LegDimensions T) :
  (is_reachable target dimensions = true
   <-> exists angles, solve_ik target dimensions = Ok angles)
  /\ (is_reachable target dimensions = false
      <-> solve_ik target dimensions = Err TooFar
          \/ solve_ik target dimensions = Err TooClose)
  /\ (exists b : bool, is_reachable target dimensions = b).
Proof.
  unfold is_reachable.
  destruct (solve_ik_cases target dimensions) as [E | [E | E]]; rewrite E.
  - repeat split; try discriminate; eauto.
    intros [a Ha]; discriminate.
  - repeat split; try discriminate; eauto.
    intros [a Ha]; discriminate.
  - repeat split; try discriminate; eauto.
    intros [H | H]; discriminate.
Qed.

End Reachability.

(** ** Binary64: clamping and the workspace query on IEEE doubles *)

Section Binary64Facts.

Import Stdlib.Floats.Floats.
Import Binary64.

Variable L : Libm.

Local Abbreviation clamp := (@clamp_angle float (float_scalar L)).

Lemma float_ltb_leb (a b : float) :
  PrimFloat.ltb a b = true -> PrimFloat.leb a b = true.
Proof.
  rewrite ltb_spec, leb_spec.
  unfold SFltb, SFleb.
  destruct (SFcompare (Prim2SF a) (Prim2SF b)) as [[ | | ] | ];
    intros H; try reflexivity; discriminate H.
Qed.

(** Whatever double comes in, a NaN or an infinity included, [clamp_angle]
    sends out a number of [0, 180]: [std::min(180.0, NaN)] is [180.0]. *)
Lemma clamp_angle_within (a : float) : within 0 180 (clamp a) = true.
Proof.
  unfold clamp_angle, clamp_angle_between, std_max, std_min, within.
  cbn [num_lt lit float_scalar float_of_Z].
  change (PrimFloat.of_uint63 (Uint63.of_Z 180)) with 180%float.
  change PrimFloat.zero with 0%float.
  destruct (PrimFloat.ltb a 180) eqn:Ha.
  - destruct (PrimFloat.ltb 0 a) eqn:H0.
    + now rewrite (float_ltb_leb H0), (float_ltb_leb Ha).
    + reflexivity.
  - reflexivity.
Qed.

Lemma clamp_angle_nan : clamp nan = 180%float.
Proof. reflexivity. Qed.

(** C3.  On doubles, with any [libm]: whenever [solve_ik] returns angles,
    each of the three is a number of the closed interval [0, 180]. *)
Theorem solve_ik_angles_in_servo_range
  (target : Position3D float) (dimensions : LegDimensions float) :
  match solve_ik (num := float_scalar L) target dimensions with
  | Ok angles => in_servo_range angles = true
  | Err _ => True
  end.
Proof.
  destruct (solve_ik_cases (num := float_scalar L) target dimensions)
    as [E | [E | E]]; rewrite E; try exact I.
  unfold in_servo_range, clamp_angles; cbn [coxa femur tibia].
  now rewrite !clamp_angle_within.
Qed.

(** A target with a NaN coordinate passes both reachability comparisons, and
    the angles returned for it are still servo angles. *)
Lemma solve_ik_nan_target :
  exists angles,
    solve_ik (num := float_scalar L)
             {| x := nan; y := 0%float; z := 0%float |}
             {| coxa_length := 30%float; femur_length := 50%float;
                tibia_length := 50%float |}
    = Ok angles
    /\ in_servo_range angles = true.
Proof.
  eexists; split; [reflexivity | ].
  unfold in_servo_range; cbn [coxa femur tibia].
  now rewrite !clamp_angle_within.
Qed.

(** The square root of a negative double is a NaN, and a NaN plus anything
    is a NaN. *)
Lemma sqrt_negative_nan (a : float) :
  PrimFloat.ltb a 0 = true -> Prim2SF (PrimFloat.sqrt a) = S754_nan.
Proof.
  rewrite ltb_spec, sqrt_spec.
  change (Prim2SF 0) with (S754_zero false).
  destruct (Prim2SF a) as [s | s | | s m e]; cbn; try discriminate;
    destruct s; cbn; try discriminate; reflexivity.
Qed.

Lemma add_nan_l (a b : float) :
  Prim2SF a = S754_nan -> PrimFloat.is_nan (PrimFloat.add a b) = true.
Proof.
  intros Ha. unfold PrimFloat.is_nan.
  rewrite eqb_spec, add_spec, Ha. reflexivity.
Qed.

(** C4, as the code has it.  [max_reach_at_height] has no error to raise: it
    returns a double on every input, and when the argument of its square
    root is negative that double is a NaN. *)
Theorem max_reach_at_height_nan
  (z_height : float) (dimensions : LegDimensions float) :
  PrimFloat.ltb (radicand z_height dimensions) 0 = true ->
  PrimFloat.is_nan
    (max_reach_at_height (num := float_scalar L) z_height dimensions) = true.
Proof.
  intros H.
  unfold max_reach_at_height; cbn [num_add num_sub num_mul num_sqrt float_scalar].
  apply add_nan_l, sqrt_negative_nan, H.
Qed.

End Binary64Facts.

Section Binary64Examples.

Import Stdlib.Floats.Floats.
Import Binary64.

(** C4, witness: the height 200 over a leg of 50 + 50. *)
Lemma max_reach_at_height_nan_witness :
  PrimFloat.is_nan
    (max_reach_at_height (num := Binary64.float_scalar Binary64.libm_unused)
       200%float
       {| coxa_length := 30%float; femur_length := 50%float;
          tibia_length := 50%float |}) = true.
Proof.
  apply (@max_reach_at_height_nan Binary64.libm_unused 200%float
           {| coxa_length := 30%float; femur_length := 50%float;
              tibia_length := 50%float |}).
  reflexivity.
Defined.

(** C4, as stated, fails: at [|z_height| = 200 > 100 = femur + tibia] no
    error is raised; the value returned is a NaN. *)
Lemma max_reach_at_height_no_domain_error :
  PrimFloat.ltb (PrimFloat.add 50 50) (PrimFloat.abs 200) = true
  /\ forall L : Binary64.Libm,
       PrimFloat.is_nan
         (max_reach_at_height (num := Binary64.float_scalar L) 200%float
            {| coxa_length := 30%float; femur_length := 50%float;
               tibia_length := 50%float |}) = true.
Proof. split; [reflexivity | intros L; reflexivity]. Qed.

(** The scenarios of the specification, run on doubles.  Reachability calls
    nothing of [libm], so the outcome is the same for every [Libm]. *)

Lemma boundary_reachable_binary64 (L : Libm) :
  is_reachable (num := float_scalar L)
    {| x := 130%float; y := 0%float; z := 0%float |}
    {| coxa_length := 30%float; femur_length := 50%float;
       tibia_length := 50%float |} = true.
Proof. reflexivity. Qed.

(** The double next above 130 is already too far. *)
Lemma beyond_boundary_binary64 (L : Libm) :
  solve_ik (num := float_scalar L)
    {| x := PrimFloat.next_up 130; y := 0%float; z := 0%float |}
    {| coxa_length := 30%float; femur_length := 50%float;
       tibia_length := 50%float |} = Err TooFar.
Proof. reflexivity. Qed.

Lemma too_close_binary64 (L : Libm) :
  solve_ik (num := float_scalar L)
    {| x := 69%float; y := 0%float; z := 0%float |}
    {| coxa_length := 30%float; femur_length := 70%float;
       tibia_length := 30%float |} = Err TooClose.
Proof. reflexivity. Qed.

Lemma scenario_reachable_binary64 (L : Libm) :
  is_reachable (num := float_scalar L)
    {| x := 100%float; y := 0%float; z := 0%float |}
    {| coxa_length := 20%float; femur_length := 60%float;
       tibia_length := 80%float |} = true.
Proof. reflexivity. Qed.

(** With [atan2 (0, 100) = 0], as C requires of it (F.10.1.4), the coxa
    angle of the scenario is 90 on doubles as well. *)
Lemma scenario_coxa_binary64 (L : Libm) :
  libm_atan2 L 0 100 = 0%float ->
  coxa (clamp_angles (num := float_scalar L)
          (solved_angles (num := float_scalar L)
             {| x := 100%float; y := 0%float; z := 0%float |}
             {| coxa_length := 20%float; femur_length := 60%float;
                tibia_length := 80%float |})) = 90%float.
Proof.
  intros H.
  cbn [coxa clamp_angles solved_angles x y num_atan2 float_scalar].
  rewrite H. reflexivity.
Qed.

(** The origin is inside the coxa radius of the leg 30 / 50 / 50 and is
    reachable. *)
Lemma origin_reachable_binary64 (L : Libm) :
  is_reachable (num := float_scalar L)
    {| x := 0%float; y := 0%float; z := 0%float |}
    {| coxa_length := 30%float; femur_length := 50%float;
       tibia_length := 50%float |} = true.
Proof. reflexivity. Qed.

End Binary64Examples.

(** ** Doubles: rounding keeps the order

    [SpecFloat] rounds with [binary_round_aux]; [Rnd] is what it returns.
    Rounding to nearest is monotone and leaves a double as it is, so a
    rounded product [a * s] with [|s| <= 1] stays within [|a|], and a
    rounded sum within the rounded sum of the bounds of its terms. *)

Section RoundingFacts.

Import Stdlib.Floats.Floats.
Import RoundToNearest.
Local Open Scope Z_scope.

(** *** Digits *)

Lemma digits2_pos_bounds (p : positive) :
  2 ^ (Zpos (digits2_pos p) - 1) <= Zpos p < 2 ^ Zpos (digits2_pos p).
Proof.
  induction p as [p IH | p IH | ]; cbn [digits2_pos].
  - rewrite Pos2Z.inj_succ, (Pos2Z.inj_xI p).
    replace (Z.succ (Zpos (digits2_pos p)) - 1)
      with (Z.succ (Zpos (digits2_pos p) - 1)) by lia.
    rewrite !Z.pow_succ_r by lia. lia.
  - rewrite Pos2Z.inj_succ, (Pos2Z.inj_xO p).
    replace (Z.succ (Zpos (digits2_pos p)) - 1)
      with (Z.succ (Zpos (digits2_pos p) - 1)) by lia.
    rewrite !Z.pow_succ_r by lia. lia.
  - cbn. lia.
Qed.

Lemma Zdigits2_bounds (x : Z) :
  0 < x -> 1 <= Zdigits2 x /\ 2 ^ (Zdigits2 x - 1) <= x < 2 ^ Zdigits2 x.
Proof.
  destruct x as [ | p | p]; try lia. intros _.
  cbn [Zdigits2]. split; [lia | apply digits2_pos_bounds].
Qed.

Lemma Zdigits2_unique (x k : Z) :
  0 < x -> 2 ^ (k - 1) <= x < 2 ^ k -> Zdigits2 x = k.
Proof.
  intros Hx [Hlo Hhi].
  destruct (Zdigits2_bounds Hx) as (Hd & Hl & Hh).
  assert (Hk : 1 <= k).
  { destruct (Z.lt_ge_cases k 1) as [H | H]; [ | exact H].
    assert (2 ^ k <= 2 ^ 0) by (apply Z.pow_le_mono_r; lia).
    change (2 ^ 0) with 1 in *. lia. }
  destruct (Z.lt_trichotomy (Zdigits2 x) k) as [H | [H | H]]; [ | exact H | ].
  - assert (2 ^ Zdigits2 x <= 2 ^ (k - 1)) by (apply Z.pow_le_mono_r; lia).
    lia.
  - assert (2 ^ k <= 2 ^ (Zdigits2 x - 1)) by (apply Z.pow_le_mono_r; lia).
    lia.
Qed.

Lemma Zdigits2_mul_pow2 (x j : Z) :
  0 < x -> 0 <= j -> Zdigits2 (x * 2 ^ j) = Zdigits2 x + j.
Proof.
  intros Hx Hj.
  destruct (Zdigits2_bounds Hx) as (Hd & Hl & Hh).
  assert (Hp : 0 < 2 ^ j) by (apply Z.pow_pos_nonneg; lia).
  apply Zdigits2_unique; [nia | ].
  replace (Zdigits2 x + j - 1) with (Zdigits2 x - 1 + j) by lia.
  rewrite !Z.pow_add_r by lia. nia.
Qed.

Lemma Zdigits2_le (x y : Z) : 0 < x -> x <= y -> Zdigits2 x <= Zdigits2 y.
Proof.
  intros Hx Hxy.
  destruct (Zdigits2_bounds Hx) as (Hd & Hl & Hh).
  destruct (@Zdigits2_bounds y ltac:(lia)) as (Hd' & Hl' & Hh').
  destruct (Z.le_gt_cases (Zdigits2 x) (Zdigits2 y)) as [H | H]; [exact H | ].
  assert (2 ^ Zdigits2 y <= 2 ^ (Zdigits2 x - 1))
    by (apply Z.pow_le_mono_r; lia).
  lia.
Qed.

(** *** Shifting right *)

Lemma iter_pos_invariant (A : Type) (f : A -> A) (Inv : Z -> A -> Prop) :
  (forall k x, 0 <= k -> Inv k x -> Inv (k + 1) (f x)) ->
  forall p k x, 0 <= k -> Inv k x -> Inv (k + Zpos p) (iter_pos f p x).
Proof.
  intros Hstep. induction p as [p IH | p IH | ]; intros k x Hk Hx;
    cbn [iter_pos].
  - replace (k + Zpos p~1) with (k + 1 + Zpos p + Zpos p) by lia.
    apply IH; [lia | ]. apply IH; [lia | ]. now apply Hstep.
  - replace (k + Zpos p~0) with (k + Zpos p + Zpos p) by lia.
    apply IH; [lia | ]. now apply IH.
  - now apply Hstep.
Qed.

Lemma shr_1_nonneg (m : Z) (r s : bool) :
  0 <= m ->
  shr_1 (Build_shr_record m r s)
  = Build_shr_record (Z.div2 m) (Z.odd m) (r || s).
Proof.
  intros Hm. destruct m as [ | [p | p | ] | p]; try reflexivity. lia.
Qed.

Lemma shr_inv_step (m0 k : Z) (mrs : shr_record) :
  0 <= k -> shr_inv m0 k mrs -> shr_inv m0 (k + 1) (shr_1 mrs).
Proof.
  intros Hk (Hm & Hrem & Hloc).
  destruct mrs as [m r s]. cbn [shr_m] in *.
  rewrite shr_1_nonneg by assumption.
  unfold shr_inv. cbn [shr_m].
  rewrite Z.pow_add_r by lia. change (2 ^ 1) with 2.
  pose proof (Z.div2_odd m) as Hdiv.
  assert (HP : 0 < 2 ^ k) by (apply Z.pow_pos_nonneg; lia).
  set (P := 2 ^ k) in *. set (h := Z.div2 m) in *.
  assert (Hh : 0 <= h).
  { unfold h. rewrite Z.div2_div. apply Z.div_pos; lia. }
  split; [exact Hh | ].
  destruct (Z.odd m); cbn [Z.b2z] in Hdiv.
  - (* odd *)
    replace (m0 - P * 2 * h) with (m0 - P * m + P) by lia.
    split; [lia | ].
    destruct r, s; cbn [orb loc_of_shr_record] in *;
      destruct (Z.eqb_spec (m0 - P * m) 0) as [E | E];
      try discriminate Hloc;
      destruct (Z.eqb_spec (m0 - P * m + P) 0) as [E' | E'];
      try (exfalso; lia);
      destruct (Z.compare_spec (2 * (m0 - P * m + P)) (P * 2));
      try reflexivity; exfalso; lia.
  - replace (m0 - P * 2 * h) with (m0 - P * m) by lia.
    split; [lia | ].
    destruct r, s; cbn [orb loc_of_shr_record] in *;
      destruct (Z.eqb_spec (m0 - P * m) 0) as [E | E];
      try discriminate Hloc;
      try reflexivity;
      destruct (Z.compare_spec (2 * (m0 - P * m)) (P * 2));
      try reflexivity; exfalso; lia.
Qed.

Lemma shr_inv_0 (m0 : Z) :
  0 <= m0 -> shr_inv m0 0 (Build_shr_record m0 false false).
Proof.
  intros H. unfold shr_inv. cbn [shr_m loc_of_shr_record].
  change (2 ^ 0) with 1.
  replace (m0 - 1 * m0) with 0 by lia. cbn. repeat split; lia.
Qed.

Lemma shr_spec (m e n : Z) :
  0 <= m -> 0 <= n ->
  snd (shr (Build_shr_record m false false) e n) = e + n
  /\ shr_inv m n (fst (shr (Build_shr_record m false false) e n)).
Proof.
  intros Hm Hn. destruct n as [ | p | p]; try lia; cbn [shr fst snd].
  - split; [lia | now apply shr_inv_0].
  - split; [reflexivity | ].
    apply (@iter_pos_invariant shr_record shr_1 (shr_inv m) (@shr_inv_step m)
             p 0 (Build_shr_record m false false)); [lia | now apply shr_inv_0].
Qed.

(** *** Rounding to nearest, ties to even, of [X / 2 ^ k] *)

Lemma shr_inv_div (m0 k : Z) (mrs : shr_record) :
  0 <= k -> shr_inv m0 k mrs -> shr_m mrs = m0 / 2 ^ k.
Proof.
  intros Hk (Hm & Hrem & _).
  assert (HP : 0 < 2 ^ k) by (apply Z.pow_pos_nonneg; lia).
  apply Z.div_unique with (r := m0 - 2 ^ k * shr_m mrs); lia.
Qed.

Lemma shr_inv_rne (m0 k : Z) (mrs : shr_record) :
  0 <= k -> shr_inv m0 k mrs ->
  round_nearest_even (shr_m mrs) (loc_of_shr_record mrs) = rne m0 k.
Proof.
  intros Hk H. pose proof (shr_inv_div Hk H) as E.
  destruct H as (Hm & Hrem & Hloc).
  unfold rne. rewrite <- E, Hloc.
  destruct (m0 - 2 ^ k * shr_m mrs =? 0); [reflexivity | ].
  cbn [round_nearest_even].
  destruct (2 * (m0 - 2 ^ k * shr_m mrs) ?= 2 ^ k); reflexivity.
Qed.

Lemma rne_bounds (X k : Z) :
  0 <= k -> X / 2 ^ k <= rne X k <= X / 2 ^ k + 1.
Proof.
  intros Hk. unfold rne.
  destruct (_ =? 0); [lia | ].
  destruct (_ ?= _); [ | lia | lia].
  destruct (Z.even _); lia.
Qed.

Lemma rne_exact (Y k : Z) : 0 <= k -> rne (Y * 2 ^ k) k = Y.
Proof.
  intros Hk. unfold rne.
  assert (HP : 0 < 2 ^ k) by (apply Z.pow_pos_nonneg; lia).
  rewrite Z.div_mul by lia.
  replace (Y * 2 ^ k - 2 ^ k * Y) with 0 by lia. reflexivity.
Qed.

Lemma rne_mono (X X' k : Z) :
  0 <= k -> X <= X' -> rne X k <= rne X' k.
Proof.
  intros Hk HX.
  assert (HP : 0 < 2 ^ k) by (apply Z.pow_pos_nonneg; lia).
  assert (Hq : X / 2 ^ k <= X' / 2 ^ k) by (apply Z.div_le_mono; lia).
  pose proof (rne_bounds X Hk) as B. pose proof (rne_bounds X' Hk) as B'.
  destruct (Z.eq_dec (X / 2 ^ k) (X' / 2 ^ k)) as [E | E]; [ | lia].
  clear B B'. unfold rne. rewrite <- E.
  pose proof (Z.mul_div_le X (2 ^ k) HP).
  set (q := X / 2 ^ k) in *. set (P := 2 ^ k) in *.
  destruct (Z.eqb_spec (X - P * q) 0), (Z.eqb_spec (X' - P * q) 0);
    try lia;
    destruct (Z.compare_spec (2 * (X - P * q)) P);
    destruct (Z.compare_spec (2 * (X' - P * q)) P);
    destruct (Z.even q); lia.
Qed.

Lemma rne_scale (X k j : Z) :
  0 <= k -> 0 <= j -> rne (X * 2 ^ j) (k + j) = rne X k.
Proof.
  intros Hk Hj. unfold rne.
  assert (HP : 0 < 2 ^ k) by (apply Z.pow_pos_nonneg; lia).
  assert (HJ : 0 < 2 ^ j) by (apply Z.pow_pos_nonneg; lia).
  rewrite Z.pow_add_r by lia.
  rewrite Z.div_mul_cancel_r by lia.
  set (q := X / 2 ^ k). set (P := 2 ^ k) in *. set (J := 2 ^ j) in *.
  replace (X * J - P * J * q) with ((X - P * q) * J) by ring.
  destruct (Z.eqb_spec ((X - P * q) * J) 0), (Z.eqb_spec (X - P * q) 0);
    try reflexivity; try nia.
  destruct (Z.compare_spec (2 * ((X - P * q) * J)) (P * J)),
           (Z.compare_spec (2 * (X - P * q)) P);
    try reflexivity; exfalso; nia.
Qed.

Lemma rne_upper (X k t : Z) :
  0 <= k -> k <= t -> X < 2 ^ t -> rne X k <= 2 ^ (t - k).
Proof.
  intros Hk Ht HX.
  assert (HP : 0 < 2 ^ k) by (apply Z.pow_pos_nonneg; lia).
  pose proof (rne_bounds X Hk) as B.
  assert (X / 2 ^ k < 2 ^ (t - k)).
  { apply Z.div_lt_upper_bound; [exact HP | ].
    rewrite <- Z.pow_add_r by lia. replace (k + (t - k)) with t by lia.
    exact HX. }
  lia.
Qed.

Lemma rne_lower (X k t : Z) :
  0 <= k -> k <= t -> 2 ^ t <= X -> 2 ^ (t - k) <= rne X k.
Proof.
  intros Hk Ht HX.
  assert (HP : 0 < 2 ^ k) by (apply Z.pow_pos_nonneg; lia).
  pose proof (rne_bounds X Hk) as B.
  assert (2 ^ (t - k) <= X / 2 ^ k).
  { apply Z.div_le_lower_bound; [exact HP | ].
    rewrite <- Z.pow_add_r by lia. replace (k + (t - k)) with t by lia.
    exact HX. }
  lia.
Qed.

Lemma rne_nonneg (X k : Z) : 0 <= k -> 0 <= X -> 0 <= rne X k.
Proof.
  intros Hk HX. pose proof (rne_bounds X Hk).
  assert (0 <= X / 2 ^ k) by (apply Z.div_pos; [lia | apply Z.pow_pos_nonneg; lia]).
  lia.
Qed.

(** *** What [binary_round_aux] returns, in closed form *)

Lemma fexp_eq (e : Z) : fexp prec emax e = Z.max (e - 53) (-1074).
Proof. reflexivity. Qed.

Lemma shr_nonpos (mrs : shr_record) (e n : Z) :
  n <= 0 -> shr mrs e n = (mrs, e).
Proof. intros H. destruct n; try reflexivity. lia. Qed.

Lemma binary_round_aux_Rnd (m e : Z) :
  0 < m -> unit_exp <= e -> e <= fexp prec emax (Zdigits2 m + e) ->
  binary_round_aux prec emax false m e loc_Exact
  = Rnd (m * 2 ^ (e - unit_exp)).
Proof.
  intros Hm He Hc.
  destruct (Zdigits2_bounds Hm) as (Hd & Hl & Hh).
  unfold Rnd. unfold unit_exp in *. rewrite Zdigits2_mul_pow2 by lia.
  replace (Zdigits2 m + (e - -2148) + -2148) with (Zdigits2 m + e) by lia.
  unfold binary_round_aux, shr_fexp. cbn [shr_record_of_loc].
  set (c := fexp prec emax (Zdigits2 m + e)) in *.
  assert (Hcm : -1074 <= c /\ Zdigits2 m + e - 53 <= c).
  { unfold c. rewrite fexp_eq. lia. }
  destruct (@shr_spec m e (c - e) ltac:(lia) ltac:(lia)) as [Hs Hinv].
  destruct (shr (Build_shr_record m false false) e (c - e)) as [mrs' e'].
  cbn [fst snd] in Hs, Hinv. subst e'.
  replace (e + (c - e)) with c by lia.
  rewrite (@shr_inv_rne m (c - e) mrs' ltac:(lia) Hinv).
  replace (c - -2148) with ((c - e) + (e - -2148)) by lia.
  rewrite rne_scale by lia.
  set (q := rne m (c - e)).
  assert (Hq0 : 0 <= q) by (apply rne_nonneg; lia).
  assert (Hq1 : q <= 2 ^ 53).
  { replace 53 with ((c - e + 53) - (c - e)) by lia.
    apply rne_upper; try lia.
    eapply Z.lt_le_trans; [exact Hh | ].
    apply Z.pow_le_mono_r; lia. }
  destruct (Z.eqb_spec q 0) as [E0 | E0].
  - rewrite E0. cbn [Zdigits2].
    rewrite shr_nonpos by (rewrite fexp_eq; lia).
    reflexivity.
  - destruct (Z.ltb_spec q (2 ^ 53)) as [E1 | E1].
    + assert (Hdq : Zdigits2 q <= 53).
      { destruct (@Zdigits2_bounds q ltac:(lia)) as (_ & Hlq & _).
        destruct (Z.le_gt_cases (Zdigits2 q) 53) as [H | H]; [exact H | ].
        assert (2 ^ 53 <= 2 ^ (Zdigits2 q - 1))
          by (apply Z.pow_le_mono_r; lia).
        lia. }
      rewrite shr_nonpos by (rewrite fexp_eq; lia).
      cbn [shr_m]. destruct q as [ | p | p]; try lia.
      change (emax - prec) with 971.
      reflexivity.
    + assert (E : q = 2 ^ 53) by lia.
      rewrite E. change (Zdigits2 (2 ^ 53)) with 54.
      replace (fexp prec emax (54 + c) - c) with 1 by (rewrite fexp_eq; lia).
      cbn. change (emax - prec) with 971.
      reflexivity.
Qed.

Lemma Pos_iter_xO (m d : positive) :
  Zpos (Pos.iter xO m d) = Zpos m * 2 ^ Zpos d.
Proof.
  induction d as [ | d IH] using Pos.peano_ind.
  - cbn. lia.
  - rewrite Pos.iter_succ, Pos2Z.inj_succ, Z.pow_succ_r by lia.
    rewrite (Pos2Z.inj_xO (Pos.iter xO m d)), IH. ring.
Qed.

Lemma binary_round_Rnd (m : positive) (e : Z) :
  unit_exp <= e ->
  binary_round prec emax false m e = Rnd (Zpos m * 2 ^ (e - unit_exp)).
Proof.
  intros He. unfold binary_round, shl_align.
  change (Zpos (digits2_pos m)) with (Zdigits2 (Zpos m)).
  set (c := fexp prec emax (Zdigits2 (Zpos m) + e)).
  assert (Hcm : -1074 <= c) by (unfold c; rewrite fexp_eq; lia).
  unfold unit_exp in *.
  destruct (c - e) as [ | d | d] eqn:E.
  - apply binary_round_aux_Rnd; unfold unit_exp; fold c; lia.
  - apply binary_round_aux_Rnd; unfold unit_exp; fold c; lia.
  - rewrite binary_round_aux_Rnd; unfold unit_exp.
    + rewrite Pos_iter_xO. f_equal.
      rewrite <- Z.mul_assoc, <- Z.pow_add_r by lia.
      f_equal. f_equal. lia.
    + lia.
    + lia.
    + rewrite Pos_iter_xO, Zdigits2_mul_pow2 by lia.
      replace (Zdigits2 (Zpos m) + Zpos d + c)
        with (Zdigits2 (Zpos m) + e) by lia.
      fold c. lia.
Qed.

(** *** Rounding keeps the order *)

Lemma SFcompare_pos_Z (m1 m2 : positive) (e1 e2 : Z) :
  SFcompare (S754_finite false m1 e1) (S754_finite false m2 e2)
  = Some (match Z.compare e1 e2 with
          | Lt => Lt
          | Gt => Gt
          | Eq => Z.compare (Zpos m1) (Zpos m2)
          end).
Proof. reflexivity. Qed.

Lemma SFcompare_neg_Z (m1 m2 : positive) (e1 e2 : Z) :
  SFcompare (S754_finite true m1 e1) (S754_finite true m2 e2)
  = Some (match Z.compare e1 e2 with
          | Lt => Gt
          | Gt => Lt
          | Eq => CompOpp (Z.compare (Zpos m1) (Zpos m2))
          end).
Proof. reflexivity. Qed.

Lemma Rnd_shape (X : Z) :
  Rnd X = shape (rne X (fexp prec emax (Zdigits2 X + unit_exp) - unit_exp))
                (fexp prec emax (Zdigits2 X + unit_exp)).
Proof. reflexivity. Qed.

Lemma shape_le (q q' c c' : Z) :
  0 <= q <= 2 ^ 53 -> 0 <= q' <= 2 ^ 53 -> c <= c' ->
  (c = c' -> q <= q') -> (c < c' -> 2 ^ 52 <= q') ->
  SFleb (shape q c) (shape q' c') = true.
Proof.
  change (2 ^ 53) with 9007199254740992.
  change (2 ^ 52) with 4503599627370496.
  intros Hq Hq' Hc Heq Hlt. unfold shape, SFleb.
  change (2 ^ 53) with 9007199254740992.
  change (Z.to_pos (2 ^ 52)) with 4503599627370496%positive.
  destruct (Z.eqb_spec q 0), (Z.eqb_spec q' 0),
    (Z.ltb_spec q 9007199254740992), (Z.ltb_spec q' 9007199254740992),
    (Z.leb_spec c 971), (Z.leb_spec c' 971),
    (Z.leb_spec (c + 1) 971), (Z.leb_spec (c' + 1) 971);
    try (exfalso; lia); try reflexivity;
    rewrite ?SFcompare_pos_Z, ?Z2Pos.id by lia;
    repeat match goal with
           | |- context [Z.compare ?a ?b] => destruct (Z.compare_spec a b)
           end;
    try reflexivity; exfalso; lia.
Qed.

Lemma Rnd_facts (X : Z) :
  0 < X ->
  let c := fexp prec emax (Zdigits2 X + unit_exp) in
  let q := rne X (c - unit_exp) in
  -1074 <= c /\ Zdigits2 X + unit_exp - 53 <= c
  /\ 0 <= q <= 2 ^ 53
  /\ (-1074 < c -> 2 ^ 52 <= q).
Proof.
  intros HX c q. unfold unit_exp in *.
  destruct (Zdigits2_bounds HX) as (Hd & Hl & Hh).
  assert (Hc : -1074 <= c /\ Zdigits2 X + -2148 - 53 <= c
               /\ (-1074 < c -> c = Zdigits2 X + -2148 - 53)).
  { unfold c. rewrite fexp_eq. lia. }
  split; [lia | ]. split; [lia | ].
  split; [split | ].
  - apply rne_nonneg; lia.
  - replace 53 with ((c - -2148 + 53) - (c - -2148)) by lia.
    apply rne_upper; try lia.
    eapply Z.lt_le_trans; [exact Hh | ].
    apply Z.pow_le_mono_r; lia.
  - intros Hgt.
    replace 52 with ((c - -2148 + 52) - (c - -2148)) by lia.
    apply rne_lower; try lia.
    replace (c - -2148 + 52) with (Zdigits2 X - 1) by lia.
    exact Hl.
Qed.

Lemma Rnd_mono (X X' : Z) :
  0 < X -> X <= X' -> SFleb (Rnd X) (Rnd X') = true.
Proof.
  intros HX HXX'.
  assert (HX' : 0 < X') by lia.
  rewrite !Rnd_shape.
  destruct (Rnd_facts HX) as (H1 & H2 & H3 & H4).
  destruct (Rnd_facts HX') as (H1' & H2' & H3' & H4').
  pose proof (Zdigits2_le HX HXX') as Hd.
  assert (Hc : fexp prec emax (Zdigits2 X + unit_exp)
               <= fexp prec emax (Zdigits2 X' + unit_exp)).
  { rewrite !fexp_eq. lia. }
  apply shape_le; try assumption.
  - intros E. rewrite <- E. apply rne_mono; [ | lia].
    unfold unit_exp in *. lia.
  - intros Hlt. apply H4'. lia.
Qed.

(** *** A double rounds to itself *)

Lemma bounded_facts (m : positive) (e : Z) :
  bounded prec emax m e = true ->
  fexp prec emax (Zdigits2 (Zpos m) + e) = e
  /\ -1074 <= e <= 971 /\ Zdigits2 (Zpos m) <= 53
  /\ (Zdigits2 (Zpos m) < 53 -> e = -1074).
Proof.
  unfold bounded, canonical_mantissa. intros H.
  apply andb_prop in H. destruct H as [H1 H2].
  apply Z.eqb_eq in H1. apply Z.leb_le in H2.
  change (emax - prec) with 971 in H2.
  change (Zpos (digits2_pos m)) with (Zdigits2 (Zpos m)) in H1.
  split; [exact H1 | ]. rewrite fexp_eq in H1. lia.
Qed.

Lemma Rnd_representable (m : positive) (e : Z) :
  bounded prec emax m e = true ->
  Rnd (Zpos m * 2 ^ (e - unit_exp)) = S754_finite false m e.
Proof.
  intros H. destruct (bounded_facts _ _ H) as (Hc & He & Hd & _).
  destruct (@Zdigits2_bounds (Zpos m) ltac:(lia)) as (_ & _ & Hh).
  unfold Rnd, unit_exp in *.
  rewrite Zdigits2_mul_pow2 by lia.
  replace (Zdigits2 (Zpos m) + (e - -2148) + -2148)
    with (Zdigits2 (Zpos m) + e) by lia.
  rewrite Hc, rne_exact by lia.
  cbn [Z.eqb].
  assert (Hlt : Zpos m < 2 ^ 53).
  { eapply Z.lt_le_trans; [exact Hh | ]. apply Z.pow_le_mono_r; lia. }
  destruct (Z.ltb_spec (Zpos m) (2 ^ 53)); [ | lia].
  destruct (Z.leb_spec e 971); [ | lia].
  reflexivity.
Qed.

(** *** Signs, values, and the operations *)

Ltac compare_cases :=
  repeat match goal with
         | |- context [Z.compare ?a ?b] => destruct (Z.compare_spec a b)
         | |- context [Pos.compare ?a ?b] => destruct (Pos.compare_spec a b)
         end.

Ltac compare_solve :=
  rewrite ?SFcompare_pos_Z, ?SFcompare_neg_Z; cbn;
  compare_cases; cbn; intros;
  try discriminate; try reflexivity; try (exfalso; lia).

Lemma SFleb_opp (a b : spec_float) :
  SFleb (SFopp a) (SFopp b) = SFleb b a.
Proof.
  unfold SFleb.
  destruct a as [[ | ] | [ | ] | | [ | ] ma ea],
           b as [[ | ] | [ | ] | | [ | ] mb eb]; cbn [SFopp negb];
    compare_solve.
Qed.

Lemma SFleb_trans (a b c : spec_float) :
  SFleb a b = true -> SFleb b c = true -> SFleb a c = true.
Proof.
  unfold SFleb.
  destruct a as [[ | ] | [ | ] | | [ | ] ma ea],
           b as [[ | ] | [ | ] | | [ | ] mb eb],
           c as [[ | ] | [ | ] | | [ | ] mc ec]; compare_solve.
Qed.

Lemma Rnd_nonneg_shape (X : Z) : nonneg_shape (Rnd X).
Proof.
  unfold Rnd.
  destruct (_ =? 0); [exact I | ].
  destruct (_ <? _); destruct (_ <=? _); exact I.
Qed.

Lemma nonneg_shape_opp_le (a b : spec_float) :
  nonneg_shape a -> nonneg_shape b -> SFleb (SFopp a) b = true.
Proof.
  destruct a as [[ | ] | [ | ] | | [ | ] ma ea],
           b as [[ | ] | [ | ] | | [ | ] mb eb]; cbn; intros Ha Hb;
    try contradiction; reflexivity.
Qed.

Lemma RndS_mono (N N' : Z) : N <= N' -> SFleb (RndS N) (RndS N') = true.
Proof.
  intros H.
  destruct N as [ | p | p], N' as [ | p' | p']; try lia; cbn [RndS].
  - reflexivity.
  - pose proof (Rnd_nonneg_shape (Zpos p')) as S.
    destruct (Rnd (Zpos p')) as [[ | ] | [ | ] | | [ | ] m e];
      try contradiction; reflexivity.
  - apply Rnd_mono; lia.
  - apply (@nonneg_shape_opp_le _ (S754_zero false));
      [apply Rnd_nonneg_shape | exact I].
  - apply nonneg_shape_opp_le; apply Rnd_nonneg_shape.
  - rewrite SFleb_opp. apply Rnd_mono; lia.
Qed.

Lemma RndS_opp (N : Z) : N <> 0 -> RndS (- N) = SFopp (RndS N).
Proof.
  destruct N as [ | p | p]; intros H; try contradiction; cbn [RndS Z.opp].
  - reflexivity.
  - pose proof (Rnd_nonneg_shape (Zpos p)) as S.
    destruct (Rnd (Zpos p)) as [[ | ] | [ | ] | | [ | ] m e];
      try contradiction; reflexivity.
Qed.

Lemma same_refl (x : spec_float) : same x x.
Proof. now left. Qed.

Lemma same_sym (x y : spec_float) : same x y -> same y x.
Proof.
  intros [-> | (s & s' & -> & ->)]; [now left | right; eauto].
Qed.

Lemma same_leb_l (x y w : spec_float) : same x y -> SFleb x w = SFleb y w.
Proof.
  intros [-> | (s & s' & -> & ->)]; [reflexivity | ].
  destruct w as [[ | ] | [ | ] | | [ | ] m e]; reflexivity.
Qed.

Lemma same_leb_r (x y w : spec_float) : same x y -> SFleb w x = SFleb w y.
Proof.
  intros [-> | (s & s' & -> & ->)]; [reflexivity | ].
  destruct w as [[ | ] | [ | ] | | [ | ] m e]; reflexivity.
Qed.


Lemma same_abs (x y : spec_float) : same x y -> same (SFabs x) (SFabs y).
Proof.
  intros [-> | (s & s' & -> & ->)]; [now left | right; cbn; eauto].
Qed.

Lemma same_opp (x y : spec_float) : same x y -> same (SFopp x) (SFopp y).
Proof.
  intros [-> | (s & s' & -> & ->)]; [now left | right; cbn; eauto].
Qed.

Lemma two_pow_pos (j : Z) : 0 <= j -> 0 < 2 ^ j.
Proof. intros H. apply Z.pow_pos_nonneg; lia. Qed.

Lemma RndS_sval (x : spec_float) :
  valid_binary x = true -> finite_or_zero x = true ->
  same (RndS (sval x)) x.
Proof.
  destruct x as [s | s | | s m e]; cbn [finite_or_zero valid_binary sval];
    intros Hv Hf; try discriminate Hf.
  - right. exists false, s. split; reflexivity.
  - left. destruct (bounded_facts _ _ Hv) as (_ & He & _).
    pose proof (@two_pow_pos (e - unit_exp) ltac:(unfold unit_exp; lia)) as Hp.
    pose proof (Rnd_representable _ _ Hv) as R.
    destruct s; cbn [cond_Zopp].
    + destruct (Zpos m * 2 ^ (e - unit_exp)) as [ | p | p] eqn:E; try lia.
      cbn [Z.opp RndS]. rewrite R. reflexivity.
    + destruct (Zpos m * 2 ^ (e - unit_exp)) as [ | p | p] eqn:E; try lia.
      cbn [RndS]. exact R.
Qed.

Lemma sval_le_SFleb (x y : spec_float) :
  valid_binary x = true -> finite_or_zero x = true ->
  valid_binary y = true -> finite_or_zero y = true ->
  sval x <= sval y -> SFleb x y = true.
Proof.
  intros Hx Fx Hy Fy H.
  rewrite <- (same_leb_l y (RndS_sval x Hx Fx)).
  rewrite <- (same_leb_r (RndS (sval x)) (RndS_sval y Hy Fy)).
  now apply RndS_mono.
Qed.

Lemma SFleb_antisym_sval (x y : spec_float) :
  finite_or_zero x = true -> finite_or_zero y = true ->
  SFleb x y = true -> SFleb y x = true -> sval x = sval y.
Proof.
  unfold SFleb.
  destruct x as [[ | ] | [ | ] | | [ | ] mx ex],
           y as [[ | ] | [ | ] | | [ | ] my ey];
    cbn [finite_or_zero]; intros Fx Fy; try discriminate;
    rewrite ?SFcompare_pos_Z, ?SFcompare_neg_Z; cbn;
    compare_cases; intros; try discriminate; try reflexivity;
    try (exfalso; lia); subst; reflexivity.
Qed.

Lemma SFleb_sval_le (x y : spec_float) :
  valid_binary x = true -> finite_or_zero x = true ->
  valid_binary y = true -> finite_or_zero y = true ->
  SFleb x y = true -> sval x <= sval y.
Proof.
  intros Hx Fx Hy Fy H.
  destruct (Z.le_gt_cases (sval x) (sval y)) as [L | G]; [exact L | ].
  assert (H' : SFleb y x = true) by (apply sval_le_SFleb; try assumption; lia).
  pose proof (SFleb_antisym_sval x y Fx Fy H H'). lia.
Qed.

Lemma binary_round_aux_opp (m e : Z) (l : location) :
  binary_round_aux prec emax true m e l
  = SFopp (binary_round_aux prec emax false m e l).
Proof.
  unfold binary_round_aux.
  destruct (shr_fexp prec emax m e l) as [mrs' e'].
  destruct (shr_fexp prec emax _ e' loc_Exact) as [mrs'' e''].
  destruct (shr_m mrs''); try reflexivity.
  destruct (Z.leb e'' (emax - prec)); reflexivity.
Qed.

Lemma binary_round_opp (m : positive) (e : Z) :
  binary_round prec emax true m e = SFopp (binary_round prec emax false m e).
Proof.
  unfold binary_round.
  destruct (shl_align m e _) as [mz ez]. apply binary_round_aux_opp.
Qed.

Lemma RndS_pos (N : Z) : 0 < N -> RndS N = Rnd N.
Proof. destruct N; intros H; try lia. reflexivity. Qed.

Lemma RndS_neg (N : Z) : N < 0 -> RndS N = SFopp (Rnd (- N)).
Proof. destruct N; intros H; try lia. reflexivity. Qed.

Lemma binary_normalize_RndS (M e : Z) :
  unit_exp <= e ->
  binary_normalize prec emax M e false = RndS (M * 2 ^ (e - unit_exp)).
Proof.
  intros He.
  pose proof (@two_pow_pos (e - unit_exp) ltac:(lia)) as Hp.
  destruct M as [ | m | m]; cbn [binary_normalize].
  - reflexivity.
  - rewrite RndS_pos by lia. now apply binary_round_Rnd.
  - rewrite RndS_neg by lia. rewrite binary_round_opp.
    rewrite binary_round_Rnd by assumption.
    f_equal. f_equal. lia.
Qed.

Lemma shl_align_value (m : positive) (e e' : Z) :
  e' <= e -> Zpos (fst (shl_align m e e')) = Zpos m * 2 ^ (e - e').
Proof.
  intros H. unfold shl_align.
  destruct (e' - e) as [ | d | d] eqn:E; cbn [fst]; try lia.
  - replace (e - e') with 0 by lia. cbn. lia.
  - rewrite Pos_iter_xO. f_equal. f_equal. lia.
Qed.

Lemma sval_finite (s : bool) (m : positive) (e : Z) :
  sval (S754_finite s m e) = cond_Zopp s (Zpos m * 2 ^ (e - unit_exp)).
Proof. reflexivity. Qed.

Lemma aligned_value (s : bool) (m : positive) (e ez : Z) :
  unit_exp <= ez -> ez <= e ->
  cond_Zopp s (Zpos (fst (shl_align m e ez))) * 2 ^ (ez - unit_exp)
  = sval (S754_finite s m e).
Proof.
  intros Hu He. rewrite shl_align_value by assumption. rewrite sval_finite.
  replace (e - unit_exp) with ((e - ez) + (ez - unit_exp)) by lia.
  rewrite Z.pow_add_r by lia.
  destruct s; cbn [cond_Zopp]; ring.
Qed.

Lemma SFadd_RndS (x y : spec_float) :
  valid_binary x = true -> finite_or_zero x = true ->
  valid_binary y = true -> finite_or_zero y = true ->
  same (SFadd prec emax x y) (RndS (sval x + sval y)).
Proof.
  intros Hx Fx Hy Fy.
  destruct x as [sx | sx | | sx mx ex]; try discriminate Fx;
    destruct y as [sy | sy | | sy my ey]; try discriminate Fy.
  - right. cbn. destruct sx, sy; eauto.
  - change (sval (S754_zero sx)) with 0. rewrite Z.add_0_l.
    apply same_sym. now apply RndS_sval.
  - change (sval (S754_zero sy)) with 0. rewrite Z.add_0_r.
    apply same_sym. now apply RndS_sval.
  - left. cbn [SFadd].
    destruct (bounded_facts _ _ Hx) as (_ & Hex & _).
    destruct (bounded_facts _ _ Hy) as (_ & Hey & _).
    rewrite binary_normalize_RndS by (unfold unit_exp; lia).
    f_equal. rewrite Z.mul_add_distr_r.
    rewrite !aligned_value by (unfold unit_exp; lia). reflexivity.
Qed.

Lemma SFsub_RndS (x y : spec_float) :
  valid_binary x = true -> finite_or_zero x = true ->
  valid_binary y = true -> finite_or_zero y = true ->
  same (SFsub prec emax x y) (RndS (sval x - sval y)).
Proof.
  intros Hx Fx Hy Fy.
  destruct x as [sx | sx | | sx mx ex]; try discriminate Fx;
    destruct y as [sy | sy | | sy my ey]; try discriminate Fy.
  - right. cbn. destruct sx, sy; eauto.
  - change (sval (S754_zero sx)) with 0. rewrite Z.sub_0_l.
    cbn [SFsub]. apply same_sym.
    replace (- sval (S754_finite sy my ey))
      with (sval (S754_finite (negb sy) my ey))
      by (rewrite !sval_finite; destruct sy; cbn [negb cond_Zopp]; lia).
    now apply RndS_sval.
  - change (sval (S754_zero sy)) with 0. rewrite Z.sub_0_r.
    apply same_sym. now apply RndS_sval.
  - left. cbn [SFsub].
    destruct (bounded_facts _ _ Hx) as (_ & Hex & _).
    destruct (bounded_facts _ _ Hy) as (_ & Hey & _).
    rewrite binary_normalize_RndS by (unfold unit_exp; lia).
    f_equal. rewrite Z.mul_sub_distr_r.
    rewrite !aligned_value by (unfold unit_exp; lia). reflexivity.
Qed.

Lemma product_exponent (mx my : positive) (ex ey : Z) :
  bounded prec emax mx ex = true -> bounded prec emax my ey = true ->
  unit_exp <= ex + ey
  /\ ex + ey <= fexp prec emax (Zdigits2 (Zpos (mx * my)) + (ex + ey)).
Proof.
  intros Hx Hy.
  destruct (bounded_facts _ _ Hx) as (_ & Hex & Hdx & Hsx).
  destruct (bounded_facts _ _ Hy) as (_ & Hey & Hdy & Hsy).
  destruct (@Zdigits2_bounds (Zpos mx) ltac:(lia)) as (Hx1 & Hx2 & _).
  destruct (@Zdigits2_bounds (Zpos my) ltac:(lia)) as (Hy1 & Hy2 & _).
  destruct (@Zdigits2_bounds (Zpos (mx * my)) ltac:(lia)) as (_ & _ & Hp).
  split; [unfold unit_exp; lia | ].
  assert (Hd : Zdigits2 (Zpos mx) + Zdigits2 (Zpos my) - 1
               <= Zdigits2 (Zpos (mx * my))).
  { destruct (Z.le_gt_cases
                (Zdigits2 (Zpos mx) + Zdigits2 (Zpos my) - 1)
                (Zdigits2 (Zpos (mx * my)))) as [H | H]; [exact H | ].
    exfalso.
    assert (2 ^ Zdigits2 (Zpos (mx * my))
            <= 2 ^ ((Zdigits2 (Zpos mx) - 1) + (Zdigits2 (Zpos my) - 1)))
      by (apply Z.pow_le_mono_r; lia).
    rewrite Z.pow_add_r in H0 by lia.
    pose proof (Pos2Z.inj_mul mx my) as Hm. rewrite Hm in *.
    assert (0 < 2 ^ (Zdigits2 (Zpos mx) - 1)) by (apply two_pow_pos; lia).
    assert (0 < 2 ^ (Zdigits2 (Zpos my) - 1)) by (apply two_pow_pos; lia).
    assert (2 ^ (Zdigits2 (Zpos mx) - 1) * 2 ^ (Zdigits2 (Zpos my) - 1)
            <= Zpos mx * Zpos my)
      by (apply Z.mul_le_mono_nonneg; lia).
    lia. }
  rewrite fexp_eq. lia.
Qed.

Lemma SFmul_finite (sx sy : bool) (mx my : positive) (ex ey : Z) :
  bounded prec emax mx ex = true -> bounded prec emax my ey = true ->
  SFmul prec emax (S754_finite sx mx ex) (S754_finite sy my ey)
  = (if xorb sx sy then SFopp else fun r => r)
      (Rnd (Zpos mx * Zpos my * 2 ^ (ex + ey - unit_exp))).
Proof.
  intros Hx Hy. cbn [SFmul].
  destruct (product_exponent _ _ _ _ Hx Hy) as [Hu Hc].
  destruct (xorb sx sy).
  - rewrite binary_round_aux_opp, binary_round_aux_Rnd by (assumption || lia).
    now rewrite Pos2Z.inj_mul.
  - rewrite binary_round_aux_Rnd by (assumption || lia).
    now rewrite Pos2Z.inj_mul.
Qed.

(** *** The order of doubles under multiplication and addition *)

Lemma nonneg_shape_abs (r : spec_float) : nonneg_shape r -> SFabs r = r.
Proof.
  destruct r as [[ | ] | [ | ] | | [ | ] m e]; cbn; intros H;
    try contradiction; reflexivity.
Qed.

Lemma SFabs_opp (r : spec_float) : SFabs (SFopp r) = SFabs r.
Proof. destruct r as [s | s | | s m e]; reflexivity. Qed.

Lemma SFabs_RndS (N : Z) : SFabs (RndS N) = RndS (Z.abs N).
Proof.
  destruct N as [ | p | p]; cbn [RndS Z.abs].
  - reflexivity.
  - apply nonneg_shape_abs, Rnd_nonneg_shape.
  - rewrite SFabs_opp. apply nonneg_shape_abs, Rnd_nonneg_shape.
Qed.

Lemma sval_abs (x : spec_float) : sval (SFabs x) = Z.abs (sval x).
Proof.
  destruct x as [s | s | | s m e]; try reflexivity.
  cbn [SFabs]. rewrite !sval_finite.
  pose proof (Z.pow_nonneg 2 (e - unit_exp) ltac:(lia)).
  destruct s; cbn [cond_Zopp]; lia.
Qed.

Lemma valid_abs (x : spec_float) :
  valid_binary x = true -> valid_binary (SFabs x) = true.
Proof. destruct x as [s | s | | s m e]; intros H; exact H. Qed.

Lemma finite_or_zero_abs (x : spec_float) :
  finite_or_zero (SFabs x) = finite_or_zero x.
Proof. destruct x as [s | s | | s m e]; reflexivity. Qed.

(** Below a finite number in absolute value: finite. *)
Lemma SFleb_abs_finite (a b : spec_float) :
  SFleb (SFabs a) b = true -> finite_or_zero b = true ->
  finite_or_zero a = true.
Proof.
  destruct a as [[ | ] | [ | ] | | [ | ] ma ea],
           b as [[ | ] | [ | ] | | [ | ] mb eb]; cbn;
    intros H F; try discriminate; reflexivity.
Qed.

Lemma scale_le (mx ms ex es : Z) :
  0 < mx -> 0 < ms -> -1074 <= ex -> -1074 <= es ->
  ms * 2 ^ (es - unit_exp) <= 2 ^ (- unit_exp) ->
  mx * ms * 2 ^ (ex + es - unit_exp) <= mx * 2 ^ (ex - unit_exp).
Proof.
  unfold unit_exp. intros Hmx Hms Hex Hes H.
  assert (Hes0 : es <= 0).
  { destruct (Z.le_gt_cases es 0) as [L | G]; [exact L | exfalso].
    assert (2 ^ (- -2148 + 1) <= 2 ^ (es - -2148))
      by (apply Z.pow_le_mono_r; lia).
    rewrite Z.pow_add_r in H0 by lia. change (2 ^ 1) with 2 in H0.
    pose proof (@two_pow_pos (- -2148) ltac:(lia)). nia. }
  assert (Hms' : ms <= 2 ^ (- es)).
  { replace (- -2148) with ((- es) + (es - -2148)) in H by lia.
    rewrite Z.pow_add_r in H by lia.
    pose proof (@two_pow_pos (es - -2148) ltac:(lia)).
    apply Z.mul_le_mono_pos_r in H; assumption. }
  replace (ex - -2148) with ((- es) + (ex + es - -2148)) by lia.
  rewrite Z.pow_add_r by lia.
  pose proof (@two_pow_pos (ex + es - -2148) ltac:(lia)).
  rewrite <- !Z.mul_assoc. apply Z.mul_le_mono_nonneg_l; [lia | ].
  apply Z.mul_le_mono_nonneg_r; lia.
Qed.

Lemma sval_one : sval spec_one = 2 ^ (- unit_exp).
Proof. reflexivity. Qed.

(** [|x * s| <= |x|] when [x] is finite and [|s| <= 1]. *)
Lemma SFmul_abs_le (x s : spec_float) :
  valid_binary x = true -> valid_binary s = true ->
  finite_or_zero x = true ->
  SFleb (SFabs s) spec_one = true ->
  SFleb (SFabs (SFmul prec emax x s)) (SFabs x) = true.
Proof.
  intros Hx Hs Fx Hle.
  assert (Fs : finite_or_zero s = true)
    by (apply (SFleb_abs_finite s spec_one Hle); reflexivity).
  destruct x as [sx | sx | | sx mx ex]; try discriminate Fx;
    destruct s as [ss | ss | | ss ms es]; try discriminate Fs;
    try reflexivity.
  rewrite (@SFmul_finite sx ss mx ms ex es Hx Hs).
  assert (Hv : sval (SFabs (S754_finite ss ms es)) <= sval spec_one).
  { apply SFleb_sval_le; try assumption; reflexivity. }
  cbn [SFabs] in Hv. rewrite sval_finite, sval_one in Hv.
  cbn [cond_Zopp] in Hv.
  destruct (bounded_facts _ _ Hx) as (_ & Hex & _).
  destruct (bounded_facts _ _ Hs) as (_ & Hes & _).
  assert (Hr : SFabs ((if xorb sx ss then SFopp else fun r => r)
                        (Rnd (Zpos mx * Zpos ms * 2 ^ (ex + es - unit_exp))))
               = Rnd (Zpos mx * Zpos ms * 2 ^ (ex + es - unit_exp))).
  { destruct (xorb sx ss); rewrite ?SFabs_opp;
      apply nonneg_shape_abs, Rnd_nonneg_shape. }
  rewrite Hr. cbn [SFabs].
  rewrite <- (Rnd_representable _ _ Hx).
  pose proof (@two_pow_pos (ex + es - unit_exp) ltac:(unfold unit_exp; lia)).
  apply Rnd_mono; [nia | ].
  apply scale_le; lia.
Qed.

(** [|a + b| <= f + t] when [|a| <= f] and [|b| <= t], [f] and [t] finite. *)
Lemma SFadd_abs_le (a b f t : spec_float) :
  valid_binary a = true -> valid_binary b = true ->
  valid_binary f = true -> valid_binary t = true ->
  finite_or_zero f = true -> finite_or_zero t = true ->
  SFleb (SFabs a) f = true -> SFleb (SFabs b) t = true ->
  SFleb (SFabs (SFadd prec emax a b)) (SFadd prec emax f t) = true.
Proof.
  intros Va Vb Vf Vt Ff Ft Ha Hb.
  pose proof (SFleb_abs_finite a f Ha Ff) as Fa.
  pose proof (SFleb_abs_finite b t Hb Ft) as Fb.
  assert (La : Z.abs (sval a) <= sval f).
  { rewrite <- sval_abs. apply SFleb_sval_le; try assumption.
    - now apply valid_abs.
    - now rewrite finite_or_zero_abs. }
  assert (Lb : Z.abs (sval b) <= sval t).
  { rewrite <- sval_abs. apply SFleb_sval_le; try assumption.
    - now apply valid_abs.
    - now rewrite finite_or_zero_abs. }
  rewrite (same_leb_l _ (same_abs (@SFadd_RndS a b Va Fa Vb Fb))).
  rewrite (same_leb_r _ (@SFadd_RndS f t Vf Ff Vt Ft)).
  rewrite SFabs_RndS. apply RndS_mono. lia.
Qed.

(** *** Differences *)

Lemma SFleb_not_SFltb (a b : spec_float) :
  SFleb a b = true -> SFltb b a = false.
Proof.
  unfold SFleb, SFltb.
  destruct a as [[ | ] | [ | ] | | [ | ] ma ea],
           b as [[ | ] | [ | ] | | [ | ] mb eb]; compare_solve.
Qed.



Lemma sval_nonneg (x : spec_float) :
  finite_or_zero x = true -> SFltb x (S754_zero false) = false ->
  0 <= sval x.
Proof.
  destruct x as [[ | ] | [ | ] | | [ | ] m e]; cbn [finite_or_zero];
    intros F H; try discriminate; try (cbn; lia).
  rewrite sval_finite. cbn [cond_Zopp].
  pose proof (Z.pow_nonneg 2 (e - unit_exp) ltac:(lia)). lia.
Qed.

(** [|f - t| <= f + t] for [f] and [t] finite and not negative. *)
Lemma SFsub_abs_le_add (f t : spec_float) :
  valid_binary f = true -> valid_binary t = true ->
  finite_or_zero f = true -> finite_or_zero t = true ->
  0 <= sval f -> 0 <= sval t ->
  SFleb (SFabs (SFsub prec emax f t)) (SFadd prec emax f t) = true.
Proof.
  intros Vf Vt Ff Ft Hf Ht.
  rewrite (same_leb_l _ (same_abs (@SFsub_RndS f t Vf Ff Vt Ft))).
  rewrite (same_leb_r _ (@SFadd_RndS f t Vf Ff Vt Ft)).
  rewrite SFabs_RndS. apply RndS_mono. lia.
Qed.

(** [f + t] is not below [|f - t|] when neither length is negative; a NaN
    and an infinity among them included. *)
Lemma SFadd_not_below_SFsub (f t : spec_float) :
  valid_binary f = true -> valid_binary t = true ->
  SFltb f (S754_zero false) = false -> SFltb t (S754_zero false) = false ->
  SFltb (SFadd prec emax f t) (SFabs (SFsub prec emax f t)) = false.
Proof.
  intros Vf Vt Hf Ht.
  destruct (finite_or_zero f) eqn:Ff; [destruct (finite_or_zero t) eqn:Ft | ].
  - apply SFleb_not_SFltb, SFsub_abs_le_add; try assumption;
      now apply sval_nonneg.
  - destruct f as [[ | ] | [ | ] | | [ | ] mf ef]; try discriminate Ff;
      destruct t as [[ | ] | [ | ] | | [ | ] mt et]; try discriminate Ft;
      try discriminate Ht; reflexivity.
  - destruct f as [[ | ] | [ | ] | | [ | ] mf ef]; try discriminate Ff;
      try discriminate Hf;
      destruct t as [[ | ] | [ | ] | | [ | ] mt et];
      try discriminate Ht; reflexivity.
Qed.




(** *** The square root, and the operations that keep the order *)



















End RoundingFacts.

(** ** Doubles: magnitudes under multiplication and addition *)

Section Binary64Magnitude.

Import Stdlib.Floats.Floats.
Import Binary64.
Import RoundToNearest.
Local Open Scope Z_scope.

(** [is_number], on the specification of the doubles. *)
Lemma is_number_spec (a : float) :
  is_number a = true -> finite_or_zero (Prim2SF a) = true.
Proof.
  unfold is_number. rewrite ltb_spec, abs_spec.
  change (Prim2SF infinity) with (S754_infinity false).
  destruct (Prim2SF a) as [s | s | | s m e]; cbn; intros H;
    try discriminate; reflexivity.
Qed.

Lemma spec_is_number (a : float) :
  finite_or_zero (Prim2SF a) = true -> is_number a = true.
Proof.
  unfold is_number. rewrite ltb_spec, abs_spec.
  change (Prim2SF infinity) with (S754_infinity false).
  destruct (Prim2SF a) as [s | s | | s m e]; cbn; intros H;
    try discriminate; reflexivity.
Qed.

Lemma Prim2SF_one : Prim2SF 1 = spec_one.
Proof. reflexivity. Qed.

(** A product with a factor within [-1, 1] is rounded to a double no larger
    than the other factor. *)
Lemma mul_abs_le (a s : float) :
  is_number a = true ->
  PrimFloat.leb (PrimFloat.abs s) 1 = true ->
  PrimFloat.leb (PrimFloat.abs (PrimFloat.mul a s)) (PrimFloat.abs a) = true.
Proof.
  intros Ha Hs. apply is_number_spec in Ha.
  rewrite leb_spec, abs_spec, Prim2SF_one in Hs.
  rewrite leb_spec, !abs_spec, mul_spec.
  apply SFmul_abs_le; try assumption; apply Prim2SF_valid.
Qed.

(** A sum is rounded to a double no larger than the rounded sum of the
    bounds of its terms. *)
Lemma add_abs_le (a b f t : float) :
  is_number f = true -> is_number t = true ->
  PrimFloat.leb (PrimFloat.abs a) f = true ->
  PrimFloat.leb (PrimFloat.abs b) t = true ->
  PrimFloat.leb (PrimFloat.abs (PrimFloat.add a b)) (PrimFloat.add f t) = true.
Proof.
  intros Hf Ht Ha Hb. apply is_number_spec in Hf, Ht.
  rewrite leb_spec, abs_spec in Ha, Hb.
  rewrite leb_spec, abs_spec, !add_spec.
  apply SFadd_abs_le; try assumption; apply Prim2SF_valid.
Qed.

Lemma leb_trans (a b c : float) :
  PrimFloat.leb a b = true -> PrimFloat.leb b c = true ->
  PrimFloat.leb a c = true.
Proof. rewrite !leb_spec. apply SFleb_trans. Qed.

(** Within a number in absolute value: a number. *)
Lemma leb_abs_is_number (a b : float) :
  PrimFloat.leb (PrimFloat.abs a) b = true -> is_number b = true ->
  is_number a = true.
Proof.
  intros H Hb. apply is_number_spec in Hb. apply spec_is_number.
  rewrite leb_spec, abs_spec in H.
  exact (SFleb_abs_finite _ _ H Hb).
Qed.

Lemma is_number_abs (a : float) :
  is_number (PrimFloat.abs a) = is_number a.
Proof.
  unfold is_number. rewrite !ltb_spec, !abs_spec.
  destruct (Prim2SF a) as [s | s | | s m e]; reflexivity.
Qed.

(** For [f] not below zero, [|f|] and [f] compare alike. *)
Lemma leb_abs_nonneg (a f : float) :
  PrimFloat.leb 0 f = true ->
  PrimFloat.leb a (PrimFloat.abs f) = true -> PrimFloat.leb a f = true.
Proof.
  rewrite !leb_spec, abs_spec. change (Prim2SF 0) with (S754_zero false).
  destruct (Prim2SF f) as [[ | ] | [ | ] | | [ | ] m e]; cbn [SFabs];
    intros H0 H; try discriminate H0; exact H.
Qed.

(** The two summands of a finite sum are finite. *)
Lemma is_number_add (a b : float) :
  is_number (PrimFloat.add a b) = true ->
  is_number a = true /\ is_number b = true.
Proof.
  intros H. apply is_number_spec in H. rewrite add_spec in H.
  split; apply spec_is_number;
    destruct (Prim2SF a) as [[ | ] | [ | ] | | [ | ] ma ea],
             (Prim2SF b) as [[ | ] | [ | ] | | [ | ] mb eb];
    try reflexivity; discriminate H.
Qed.


(** [f + t] is not below [|f - t|] when neither is negative; with a NaN
    among them no comparison is true. *)
Lemma add_not_below_sub (f t : float) :
  PrimFloat.ltb f 0 = false -> PrimFloat.ltb t 0 = false ->
  PrimFloat.ltb (PrimFloat.add f t) (PrimFloat.abs (PrimFloat.sub f t)) = false.
Proof.
  rewrite !ltb_spec, abs_spec, sub_spec, add_spec.
  change (Prim2SF 0) with (S754_zero false).
  apply SFadd_not_below_SFsub; apply Prim2SF_valid.
Qed.

(** The horizontal sum [length * s + length' * s'] turned by [r], added to
    [coxa * r']: within the sum of the lengths. *)
Lemma chain_abs_le (c f t s s' r r' : float) :
  is_number (PrimFloat.add (PrimFloat.abs c)
               (PrimFloat.add (PrimFloat.abs f) (PrimFloat.abs t))) = true ->
  unit_range s = true -> unit_range s' = true ->
  unit_range r = true -> unit_range r' = true ->
  PrimFloat.leb
    (PrimFloat.abs
       (PrimFloat.add (PrimFloat.mul c r')
          (PrimFloat.mul
             (PrimFloat.add (PrimFloat.mul f s) (PrimFloat.mul t s')) r)))
    (PrimFloat.add (PrimFloat.abs c)
       (PrimFloat.add (PrimFloat.abs f) (PrimFloat.abs t))) = true.
Proof.
  intros N Hs Hs' Hr Hr'.
  destruct (@is_number_add _ _ N) as [Nc Nft].
  destruct (@is_number_add _ _ Nft) as [Nf Nt].
  assert (Hft : PrimFloat.leb
                  (PrimFloat.abs
                     (PrimFloat.add (PrimFloat.mul f s) (PrimFloat.mul t s')))
                  (PrimFloat.add (PrimFloat.abs f) (PrimFloat.abs t)) = true).
  { apply add_abs_le; try assumption; apply mul_abs_le; try assumption;
      rewrite <- is_number_abs; assumption. }
  apply add_abs_le; try assumption.
  - apply mul_abs_le; [rewrite <- is_number_abs | ]; assumption.
  - eapply leb_trans; [ | exact Hft].
    apply mul_abs_le; [ | assumption].
    exact (@leb_abs_is_number _ _ Hft Nft).
Qed.











End Binary64Magnitude.

(** ** Doubles: the position [solve_fk] returns *)

Section Binary64Forward.

Import Stdlib.Floats.Floats.
Import Binary64.

Variable L : Libm.

(** C10, as the code has it.  On doubles: for femur and tibia lengths that
    are numbers and not negative, and joint angles at which [sin] returns a
    value within [-1, 1] at [femur_rad] and at [tibia_abs_angle], the two
    angles [solve_fk] takes the sine of, the height [solve_fk] returns is at
    most [femur + tibia] in absolute value, the sum rounded as the code
    rounds it.  An angle that is a NaN, or whose radians overflow, has a NaN
    for its sine and is outside the hypotheses. *)
Theorem solve_fk_height_bounded_binary64
  (angles : JointAngles float) (d : LegDimensions float) :
  is_number (femur_length d) = true ->
  is_number (tibia_length d) = true ->
  PrimFloat.leb 0 (femur_length d) = true ->
  PrimFloat.leb 0 (tibia_length d) = true ->
  unit_range (libm_sin L (femur_rad (num := float_scalar L) angles)) = true ->
  unit_range (libm_sin L (tibia_abs_angle (num := float_scalar L) angles))
  = true ->
  PrimFloat.leb
    (PrimFloat.abs (z (solve_fk (num := float_scalar L) angles d)))
    (PrimFloat.add (femur_length d) (tibia_length d)) = true.
Proof.
  intros Nf Nt Pf Pt Sf St.
  rewrite (solve_fk_eq (num := float_scalar L)).
  cbn [z num_add num_mul num_sin float_scalar].
  apply add_abs_le; try assumption.
  - apply leb_abs_nonneg; [assumption | ].
    apply mul_abs_le; assumption.
  - apply leb_abs_nonneg; [assumption | ].
    apply mul_abs_le; assumption.
Qed.

(** C7, as the code has it.  [solve_fk] has no error to raise: its result is
    a position, never an exception.  On doubles: for joint angles at which
    [sin] and [cos] return values within [-1, 1] at the three angles
    [solve_fk] passes to them, and lengths whose absolute values have a sum
    [|coxa| + (|femur| + |tibia|)] that does not overflow, the position is
    well defined: every coordinate is a number, [x] and [y] within that sum
    and [z] within [|femur| + |tibia|], the sums rounded. *)
Theorem solve_fk_coordinates_bounded_binary64
  (angles : JointAngles float) (d : LegDimensions float) :
  cos_sin_in_unit_range L angles = true ->
  is_number (total_length d) = true ->
  (PrimFloat.leb
     (PrimFloat.abs (x (solve_fk (num := float_scalar L) angles d)))
     (total_length d) = true
   /\ PrimFloat.leb
        (PrimFloat.abs (y (solve_fk (num := float_scalar L) angles d)))
        (total_length d) = true
   /\ PrimFloat.leb
        (PrimFloat.abs (z (solve_fk (num := float_scalar L) angles d)))
        (PrimFloat.add (PrimFloat.abs (femur_length d))
                       (PrimFloat.abs (tibia_length d))) = true)
  /\ is_number (x (solve_fk (num := float_scalar L) angles d)) = true
  /\ is_number (y (solve_fk (num := float_scalar L) angles d)) = true
  /\ is_number (z (solve_fk (num := float_scalar L) angles d)) = true.
Proof.
  unfold cos_sin_in_unit_range, total_length. intros H N.
  repeat (apply andb_prop in H; destruct H as [H ?]).
  destruct (@is_number_add _ _ N) as [Nc Nft].
  destruct (@is_number_add _ _ Nft) as [Nf Nt].
  assert (B : PrimFloat.leb
     (PrimFloat.abs (x (solve_fk (num := float_scalar L) angles d)))
     (total_length d) = true
   /\ PrimFloat.leb
        (PrimFloat.abs (y (solve_fk (num := float_scalar L) angles d)))
        (total_length d) = true
   /\ PrimFloat.leb
        (PrimFloat.abs (z (solve_fk (num := float_scalar L) angles d)))
        (PrimFloat.add (PrimFloat.abs (femur_length d))
                       (PrimFloat.abs (tibia_length d))) = true).
  { rewrite (solve_fk_eq (num := float_scalar L)). unfold total_length.
    cbn [x y z num_add num_mul num_sin num_cos float_scalar].
    split; [ | split].
    - apply chain_abs_le; assumption.
    - apply chain_abs_le; assumption.
    - apply add_abs_le; try assumption; apply mul_abs_le; try assumption;
        rewrite <- is_number_abs; assumption. }
  split; [exact B | ].
  destruct B as (Bx & By & Bz).
  split; [exact (@leb_abs_is_number _ _ Bx N) | ].
  split; [exact (@leb_abs_is_number _ _ By N) | ].
  exact (@leb_abs_is_number _ _ Bz Nft).
Qed.

End Binary64Forward.

(** ** Doubles: the two reachability comparisons

    [operator<] on doubles through its specification [SFcompare]: a strict
    order on the numbers, false whenever a NaN is compared. *)

Section Binary64Order.

Import Stdlib.Floats.Floats.
Import Binary64.

Lemma SFcompare_finite_pos (m1 m2 : positive) (e1 e2 : Z) :
  SFcompare (S754_finite false m1 e1) (S754_finite false m2 e2)
  = Some (match Z.compare e1 e2 with
          | Lt => Lt
          | Gt => Gt
          | Eq => Pos.compare m1 m2
          end).
Proof. reflexivity. Qed.

Lemma SFcompare_finite_neg (m1 m2 : positive) (e1 e2 : Z) :
  SFcompare (S754_finite true m1 e1) (S754_finite true m2 e2)
  = Some (match Z.compare e1 e2 with
          | Lt => Gt
          | Gt => Lt
          | Eq => CompOpp (Pos.compare m1 m2)
          end).
Proof. reflexivity. Qed.

Ltac order_cases :=
  repeat match goal with
         | |- context [Z.compare ?a ?b] => destruct (Z.compare_spec a b)
         | |- context [Pos.compare ?a ?b] => destruct (Pos.compare_spec a b)
         end.

Ltac order_solve :=
  rewrite ?SFcompare_finite_pos, ?SFcompare_finite_neg; cbn;
  order_cases; cbn; intros;
  try discriminate; try reflexivity; try (exfalso; lia).

Lemma SFltb_trans (a b c : spec_float) :
  SFltb a b = true -> SFltb b c = true -> SFltb a c = true.
Proof.
  unfold SFltb.
  destruct a as [[ | ] | [ | ] | | [ | ] ma ea],
           b as [[ | ] | [ | ] | | [ | ] mb eb],
           c as [[ | ] | [ | ] | | [ | ] mc ec]; order_solve.
Qed.

Lemma SFeqb_SFltb (a b c : spec_float) :
  SFeqb a c = true -> SFltb a b = true -> SFltb c b = true.
Proof.
  unfold SFltb, SFeqb.
  destruct a as [[ | ] | [ | ] | | [ | ] ma ea],
           b as [[ | ] | [ | ] | | [ | ] mb eb],
           c as [[ | ] | [ | ] | | [ | ] mc ec]; order_solve.
Qed.

Lemma SFeqb_not_SFltb (a c : spec_float) :
  SFeqb a c = true -> SFltb c a = false.
Proof.
  unfold SFltb, SFeqb.
  destruct a as [[ | ] | [ | ] | | [ | ] ma ea],
           c as [[ | ] | [ | ] | | [ | ] mc ec]; order_solve.
Qed.

(** [a < b] and [b < c] give [a < c]. *)
Lemma ltb_trans (a b c : float) :
  PrimFloat.ltb a b = true -> PrimFloat.ltb b c = true ->
  PrimFloat.ltb a c = true.
Proof. rewrite !ltb_spec. apply SFltb_trans. Qed.

(** [a == c] and [a < b] give [c < b]. *)
Lemma eqb_ltb (a b c : float) :
  PrimFloat.eqb a c = true -> PrimFloat.ltb a b = true ->
  PrimFloat.ltb c b = true.
Proof. rewrite !ltb_spec, eqb_spec. apply SFeqb_SFltb. Qed.

(** [a == c] leaves no room for [c < a]. *)
Lemma eqb_not_ltb (a c : float) :
  PrimFloat.eqb a c = true -> PrimFloat.ltb c a = false.
Proof. rewrite ltb_spec, eqb_spec. apply SFeqb_not_SFltb. Qed.

Variable L : Libm.

(** C2.  On doubles, with [reach_distance], [max_reach] and [min_reach] the
    doubles that [solve_ik] computes (lines 70-86) and [<] the comparison of
    doubles: [solve_ik] raises "too far" exactly when
    [max_reach < reach_distance]; it raises "too close" exactly when that
    first test has passed and [reach_distance < min_reach].  When
    [min_reach] is not above [max_reach], "too close" is raised exactly when
    [reach_distance < min_reach], and a target whose [reach_distance] equals
    [max_reach] gets angles; and [min_reach] is not above [max_reach]
    whenever neither the femur length nor the tibia length is negative. *)
Theorem solve_ik_unreachable_exactly_binary64
  (target : Position3D float) (d : LegDimensions float) :
  reach_distance (num := float_scalar L) target d
  = PrimFloat.sqrt
      (PrimFloat.add
         (PrimFloat.mul
            (PrimFloat.sub
               (PrimFloat.sqrt
                  (PrimFloat.add (PrimFloat.mul (x target) (x target))
                                 (PrimFloat.mul (y target) (y target))))
               (coxa_length d))
            (PrimFloat.sub
               (PrimFloat.sqrt
                  (PrimFloat.add (PrimFloat.mul (x target) (x target))
                                 (PrimFloat.mul (y target) (y target))))
               (coxa_length d)))
         (PrimFloat.mul (z target) (z target)))
  /\ max_reach (num := float_scalar L) d
     = PrimFloat.add (femur_length d) (tibia_length d)
  /\ min_reach (num := float_scalar L) d
     = PrimFloat.abs (PrimFloat.sub (femur_length d) (tibia_length d))
  /\ (solve_ik (num := float_scalar L) target d = Err TooFar
      <-> PrimFloat.ltb (max_reach (num := float_scalar L) d)
                        (reach_distance (num := float_scalar L) target d)
          = true)
  /\ (solve_ik (num := float_scalar L) target d = Err TooClose
      <-> PrimFloat.ltb (max_reach (num := float_scalar L) d)
                        (reach_distance (num := float_scalar L) target d)
          = false
          /\ PrimFloat.ltb (reach_distance (num := float_scalar L) target d)
                           (min_reach (num := float_scalar L) d)
             = true)
  /\ (PrimFloat.ltb (max_reach (num := float_scalar L) d)
                    (min_reach (num := float_scalar L) d) = false ->
      (solve_ik (num := float_scalar L) target d = Err TooClose
       <-> PrimFloat.ltb (reach_distance (num := float_scalar L) target d)
                         (min_reach (num := float_scalar L) d)
           = true)
      /\ (PrimFloat.eqb (reach_distance (num := float_scalar L) target d)
                        (max_reach (num := float_scalar L) d) = true ->
          exists angles,
            solve_ik (num := float_scalar L) target d = Ok angles))
  /\ (PrimFloat.ltb (femur_length d) 0 = false ->
      PrimFloat.ltb (tibia_length d) 0 = false ->
      PrimFloat.ltb (max_reach (num := float_scalar L) d)
                    (min_reach (num := float_scalar L) d) = false).
Proof.
  split; [reflexivity | ].
  split; [reflexivity | ].
  split; [reflexivity | ].
  split; [apply (solve_ik_too_far_iff (num := float_scalar L)) | ].
  split; [apply (solve_ik_too_close_iff (num := float_scalar L)) | ].
  split; [ | intros Hf Ht; apply add_not_below_sub; assumption].
  intros Hmm. split.
  - rewrite (solve_ik_too_close_iff (num := float_scalar L)).
    cbn [num_lt float_scalar].
    split; [intros [_ H]; exact H | ].
    intros H. split; [ | exact H].
    destruct (PrimFloat.ltb (max_reach (num := float_scalar L) d)
                (reach_distance (num := float_scalar L) target d)) eqn:E;
      [ | reflexivity].
    rewrite (ltb_trans E H) in Hmm. discriminate Hmm.
  - intros E. eexists.
    apply (solve_ik_ok_iff (num := float_scalar L)).
    cbn [num_lt float_scalar].
    split; [apply eqb_not_ltb, E | ].
    split; [ | reflexivity].
    destruct (PrimFloat.ltb (reach_distance (num := float_scalar L) target d)
                (min_reach (num := float_scalar L) d)) eqn:E2;
      [ | reflexivity].
    rewrite (eqb_ltb E E2) in Hmm. discriminate Hmm.
Qed.

End Binary64Order.

(** ** Doubles: squares, and what they make of the origin and of height 0

    The few identities of IEEE arithmetic that hold of every double, a NaN,
    an infinity and a signed zero included. *)

Section Binary64Algebra.

Import Stdlib.Floats.Floats.
Import Binary64.




(** [-a] and [a] have the same square. *)
Lemma mul_opp_opp (a : float) :
  PrimFloat.mul (PrimFloat.opp a) (PrimFloat.opp a) = PrimFloat.mul a a.
Proof.
  apply Prim2SF_inj. rewrite !mul_spec, opp_spec.
  destruct (Prim2SF a) as [[ | ] | [ | ] | | [ | ] m e]; reflexivity.
Qed.


Variable L : Libm.







(** The horizontal distance of a target is the same for its mirror image
    across the x axis. *)
Lemma xy_distance_mirror (px py pz : float) :
  xy_distance (num := float_scalar L)
    {| x := px; y := PrimFloat.opp py; z := pz |}
  = xy_distance (num := float_scalar L) {| x := px; y := py; z := pz |}.
Proof.
  unfold xy_distance. cbn [x y num_add num_mul num_sqrt float_scalar].
  now rewrite mul_opp_opp.
Qed.

(** X9.  On doubles, with any [libm]: a target and its mirror image across
    the leg's x axis ([y] negated) have the same fate in [solve_ik]: the
    same error, or angles with the same femur and tibia.  Only the coxa
    angle sees the sign of [y]. *)
Theorem solve_ik_mirror_image
  (px py pz : float) (d : LegDimensions float) :
  (forall e,
     solve_ik (num := float_scalar L) {| x := px; y := py; z := pz |} d = Err e
     <-> solve_ik (num := float_scalar L)
           {| x := px; y := PrimFloat.opp py; z := pz |} d = Err e)
  /\ (forall a b,
        solve_ik (num := float_scalar L) {| x := px; y := py; z := pz |} d
        = Ok a ->
        solve_ik (num := float_scalar L)
          {| x := px; y := PrimFloat.opp py; z := pz |} d = Ok b ->
        femur a = femur b /\ tibia a = tibia b).
Proof.
  assert (Hh : horizontal_reach (num := float_scalar L)
                 {| x := px; y := PrimFloat.opp py; z := pz |} d
               = horizontal_reach (num := float_scalar L)
                   {| x := px; y := py; z := pz |} d).
  { unfold horizontal_reach. now rewrite xy_distance_mirror. }
  assert (Hr : reach_distance (num := float_scalar L)
                 {| x := px; y := PrimFloat.opp py; z := pz |} d
               = reach_distance (num := float_scalar L)
                   {| x := px; y := py; z := pz |} d).
  { unfold reach_distance. now rewrite Hh. }
  split.
  - intros e. rewrite !(solve_ik_eq (num := float_scalar L)), Hr.
    destruct (num_lt _ _); [reflexivity | ].
    destruct (num_lt _ _); [reflexivity | ].
    split; discriminate.
  - intros a b Ha Hb.
    apply (solve_ik_ok_iff (num := float_scalar L)) in Ha, Hb.
    destruct Ha as (_ & _ & ->). destruct Hb as (_ & _ & ->).
    cbn [femur tibia clamp_angles solved_angles].
    unfold femur_angle_rad, tibia_angle_rad. rewrite Hr, Hh.
    split; reflexivity.
Qed.

End Binary64Algebra.

(** ** Doubles: the round trip at sample targets, and where the claims stop *)

Section Binary64Samples.

Import Stdlib.Floats.Floats.
Import Binary64.









(** C2, witness: at the boundary of the leg 30 / 50 / 50 the target
    (130, 0, 0) has [reach_distance] equal to [max_reach], and gets
    angles. *)
Lemma solve_ik_unreachable_exactly_binary64_witness :
  exists angles,
    solve_ik (num := float_scalar libm_unused) target_boundary leg_30_50_50
    = Ok angles.
Proof.
  destruct (@solve_ik_unreachable_exactly_binary64 libm_unused
              target_boundary leg_30_50_50) as (_ & _ & _ & _ & _ & H & Hl).
  destruct (H (Hl eq_refl eq_refl)) as [_ Hs].
  exact (Hs eq_refl).
Defined.



(** C7, as stated, fails: the angles (90, 90, 0) are in the servo range, and
    with the lengths 30, 2^1023 and 2^1023 the sum of femur and tibia
    overflows: [solve_fk] returns x infinite and y a NaN. *)
Lemma solve_fk_overflow_nan :
  in_servo_range angles_stretched = true
  /\ solve_fk (num := float_scalar libm_tabulated) angles_stretched
       leg_overflowing
     = {| x := infinity; y := nan; z := 0%float |}.
Proof. split; vm_compute; reflexivity. Qed.


(** C10, as stated, fails: the lengths 30 / 50 / 50 are nonnegative, and the
    femur angle 1e308, a finite double, overflows when converted to radians,
    as a femur angle that is a NaN does: the height [solve_fk] returns is a
    NaN, which is not at most 100. *)
Lemma solve_fk_height_nan :
  PrimFloat.is_nan
    (z (solve_fk (num := float_scalar libm_tabulated)
          {| coxa := 90%float; femur := 0x1.1ccf385ebc8ap+1023%float;
             tibia := 0%float |} leg_30_50_50)) = true
  /\ PrimFloat.leb
       (PrimFloat.abs
          (z (solve_fk (num := float_scalar libm_tabulated)
                {| coxa := 90%float; femur := 0x1.1ccf385ebc8ap+1023%float;
                   tibia := 0%float |} leg_30_50_50)))
       (PrimFloat.add 50 50) = false
  /\ PrimFloat.is_nan
       (z (solve_fk (num := float_scalar libm_tabulated)
             {| coxa := 90%float; femur := nan; tibia := 0%float |}
             leg_30_50_50)) = true
  /\ PrimFloat.leb
       (PrimFloat.abs
          (z (solve_fk (num := float_scalar libm_tabulated)
                {| coxa := 90%float; femur := nan; tibia := 0%float |}
                leg_30_50_50)))
       (PrimFloat.add 50 50) = false.
Proof. repeat split. Qed.

(** C7, witness: the leg 30 / 50 / 50 at the angles of the stance position,
    with the tabulated [libm]. *)
Lemma solve_fk_coordinates_bounded_binary64_witness :
  cos_sin_in_unit_range libm_tabulated angles_stance = true
  /\ is_number (total_length leg_30_50_50) = true
  /\ PrimFloat.leb
       (PrimFloat.abs
          (x (solve_fk (num := float_scalar libm_tabulated) angles_stance
                leg_30_50_50)))
       (total_length leg_30_50_50) = true.
Proof.
  split; [reflexivity | split; [reflexivity | ]].
  destruct (@solve_fk_coordinates_bounded_binary64 libm_tabulated
              angles_stance leg_30_50_50 eq_refl eq_refl) as ((Hx & _) & _).
  exact Hx.
Defined.

(** C10, witness: the same leg at the same angles; the foot is 50 below
    the hip. *)
Lemma solve_fk_height_bounded_binary64_witness :
  PrimFloat.leb
    (PrimFloat.abs
       (z (solve_fk (num := float_scalar libm_tabulated) angles_stance
             leg_30_50_50)))
    (PrimFloat.add 50 50) = true.
Proof.
  apply (@solve_fk_height_bounded_binary64 libm_tabulated angles_stance
           leg_30_50_50); reflexivity.
Defined.

End Binary64Samples.

(** ** Exact arithmetic: the operations on the reals *)

Section ExactBasics.

Import Exact.
Local Open Scope R_scope.

Lemma Rltb_false (a b : R) : Rltb a b = false <-> b <= a.
Proof.
  unfold Rltb; destruct (Rlt_dec a b); split; intros; try easy; lra.
Qed.

Lemma std_max_real (a b : R) : std_max a b = Rmax a b.
Proof.
  unfold std_max; cbn [num_lt real_scalar]; unfold Rltb, Rmax.
  destruct (Rlt_dec a b), (Rle_dec a b); lra.
Qed.

Lemma std_min_real (a b : R) : std_min a b = Rmin a b.
Proof.
  unfold std_min; cbn [num_lt real_scalar]; unfold Rltb, Rmin.
  destruct (Rlt_dec b a), (Rle_dec a b); lra.
Qed.

Lemma clamp_between_bounds (a lo hi : R) :
  lo <= hi -> lo <= clamp_angle_between a lo hi <= hi.
Proof.
  intros H. unfold clamp_angle_between.
  rewrite std_max_real, std_min_real.
  unfold Rmax, Rmin.
  destruct (Rle_dec hi a), (Rle_dec lo hi), (Rle_dec lo a); lra.
Qed.

Lemma clamp_between_id (a lo hi : R) :
  lo <= a <= hi -> clamp_angle_between a lo hi = a.
Proof.
  intros H. unfold clamp_angle_between.
  rewrite std_max_real, std_min_real.
  unfold Rmax, Rmin.
  destruct (Rle_dec hi a), (Rle_dec lo hi), (Rle_dec lo a); lra.
Qed.

Lemma clamp_angle_bounds (a : R) : 0 <= clamp_angle a <= 180.
Proof. apply clamp_between_bounds; cbn; lra. Qed.

Lemma clamp_angle_id (a : R) : 0 <= a <= 180 -> clamp_angle a = a.
Proof. apply clamp_between_id. Qed.

Lemma clamp_angle_fix (a : R) : clamp_angle a = a -> 0 <= a <= 180.
Proof. intros H; rewrite <- H; apply clamp_angle_bounds. Qed.

Lemma sqrt_square (a : R) : sqrt (a * a) = Rabs a.
Proof. apply sqrt_Rsqr_abs. Qed.

End ExactBasics.

(** ** Exact arithmetic: reachability *)

Section ExactReachability.

Import Exact.
Local Open Scope R_scope.

Lemma max_reach_real (d : LegDimensions R) :
  max_reach d = femur_length d + tibia_length d.
Proof. reflexivity. Qed.

Lemma min_reach_real (d : LegDimensions R) :
  min_reach d = Rabs (femur_length d - tibia_length d).
Proof. reflexivity. Qed.

End ExactReachability.

(** ** Exact arithmetic: the scenarios of the specification *)

Section ExactScenarios.

Import Exact.
Local Open Scope R_scope.

Lemma sqrt_of_square (a b : R) : 0 <= a -> b = a * a -> sqrt b = a.
Proof. intros Ha ->. rewrite sqrt_square. apply Rabs_right; lra. Qed.

Lemma atan2_on_positive_x_axis (a : R) : 0 < a -> atan2 0 a = 0.
Proof.
  intros Ha. unfold atan2. destruct (Rlt_dec 0 a); [ | contradiction].
  replace (0 / a) with 0 by (field; lra). apply atan_0.
Qed.

Lemma rad_to_deg_0 : rad_to_deg 0 = 0.
Proof.
  unfold rad_to_deg; cbn [num_mul num_div lit real_scalar].
  unfold Rdiv; ring.
Qed.

Lemma rad_to_deg_PI : rad_to_deg PI = 180.
Proof.
  unfold rad_to_deg; cbn [num_mul num_div lit m_pi real_scalar].
  field. apply PI_neq0.
Qed.

Lemma scenario_xy_distance : xy_distance scenario_target = 100.
Proof.
  unfold xy_distance, scenario_target;
    cbn [x y num_add num_mul num_sqrt real_scalar].
  apply sqrt_of_square; lra.
Qed.

Lemma scenario_reach_distance :
  reach_distance scenario_target scenario_dimensions = 80.
Proof.
  unfold reach_distance, horizontal_reach. rewrite scenario_xy_distance.
  cbn [z coxa_length scenario_target scenario_dimensions
       num_add num_sub num_mul num_sqrt real_scalar].
  apply sqrt_of_square; lra.
Qed.

(** C8.  Dimensions 20 / 60 / 80 and the target (100, 0, 0): [solve_ik]
    succeeds, the coxa angle is 90 degrees, and femur and tibia lie in
    [0, 180]. *)
Theorem solve_ik_scenario :
  exists angles,
    solve_ik scenario_target scenario_dimensions = Ok angles
    /\ coxa angles = 90
    /\ 0 <= femur angles <= 180
    /\ 0 <= tibia angles <= 180.
Proof.
  eexists. split; [ | split; [ | split]].
  - apply solve_ik_ok_iff. cbn [num_lt real_scalar].
    rewrite scenario_reach_distance, max_reach_real, min_reach_real.
    cbn [femur_length tibia_length scenario_dimensions].
    repeat split; try reflexivity; apply Rltb_false.
    + lra.
    + unfold Rabs. destruct (Rcase_abs (60 - 80)); lra.
  - cbn [coxa clamp_angles solved_angles].
    cbn [x y scenario_target num_atan2 num_add lit real_scalar].
    rewrite atan2_on_positive_x_axis by lra.
    rewrite rad_to_deg_0, Rplus_0_l.
    apply clamp_angle_id; lra.
  - cbn [femur clamp_angles]. apply clamp_angle_bounds.
  - cbn [tibia clamp_angles]. apply clamp_angle_bounds.
Qed.

End ExactScenarios.

(** * Further properties of [ik_solver.cpp] *)

(** ** Angle conventions and the clamp *)

Section ExactConventions.

Import Exact.
Local Open Scope R_scope.

Lemma rad_to_deg_increasing (a b : R) : a <= b -> rad_to_deg a <= rad_to_deg b.
Proof.
  intros H. unfold rad_to_deg; cbn [num_mul num_div lit m_pi real_scalar].
  pose proof PI_RGT_0 as Hpi.
  unfold Rdiv. apply Rmult_le_compat_r; [ | lra].
  left. now apply Rinv_0_lt_compat.
Qed.

(** X3.  In exact arithmetic [clamp_angle] leaves an angle as it is exactly
    when the angle is in [0, 180], and it preserves the order of angles. *)
Theorem clamp_angle_unchanged_iff (a b : R) :
  (clamp_angle a = a <-> 0 <= a <= 180)
  /\ (a <= b -> clamp_angle a <= clamp_angle b).
Proof.
  split.
  - split; [apply clamp_angle_fix | apply clamp_angle_id].
  - intros H. unfold clamp_angle, clamp_angle_between.
    rewrite !std_max_real, !std_min_real.
    cbn [lit real_scalar]. unfold Rmax, Rmin.
    destruct (Rle_dec 180 a), (Rle_dec 180 b);
      repeat match goal with
             | |- context [Rle_dec ?u ?v] => destruct (Rle_dec u v)
             end; lra.
Qed.

End ExactConventions.

(** ** Which solved angles the clamp alters *)

Section ExactClamping.

Import Exact.
Local Open Scope R_scope.

(** X4.  In exact arithmetic the final clamp never alters the tibia angle:
    as solved it is already in [0, 180], for every target and all
    dimensions. *)
Theorem solved_tibia_never_clamped (target : Position3D R) (d : LegDimensions R) :
  0 <= tibia (solved_angles target d) <= 180
  /\ clamp_angle (tibia (solved_angles target d))
     = tibia (solved_angles target d).
Proof.
  assert (B : 0 <= tibia (solved_angles target d) <= 180).
  { cbn [tibia solved_angles num_sub lit real_scalar].
    unfold tibia_angle_rad. cbn [num_acos real_scalar].
    match goal with |- context [acos ?v] => pose proof (acos_bound v) as [B1 B2] end.
    apply rad_to_deg_increasing in B1, B2.
    rewrite rad_to_deg_0 in B1. rewrite rad_to_deg_PI in B2. lra. }
  split; [exact B | apply clamp_angle_id, B].
Qed.

End ExactClamping.

(** ** Doubles: the clamp twice, and a NaN among the coordinates *)

Section Binary64Edge.

Import Stdlib.Floats.Floats.
Import Binary64.

Variable L : Libm.

(** X2.  On doubles, for every input, a NaN included, clamping a clamped
    angle changes nothing. *)
Theorem clamp_angle_idempotent_binary64 (a : float) :
  clamp_angle (num := float_scalar L) (clamp_angle (num := float_scalar L) a)
  = clamp_angle (num := float_scalar L) a.
Proof.
  unfold clamp_angle, clamp_angle_between, std_max, std_min.
  cbn [num_lt lit float_scalar float_of_Z].
  change (PrimFloat.of_uint63 (Uint63.of_Z 180)) with 180%float.
  change PrimFloat.zero with 0%float.
  destruct (PrimFloat.ltb a 180) eqn:Ha.
  - destruct (PrimFloat.ltb 0 a) eqn:H0.
    + now rewrite Ha, H0.
    + reflexivity.
  - reflexivity.
Qed.

Lemma is_nan_Prim2SF (a : float) :
  PrimFloat.is_nan a = true -> Prim2SF a = S754_nan.
Proof.
  unfold PrimFloat.is_nan. rewrite eqb_spec. unfold SFeqb.
  destruct (Prim2SF a) as [s | s | | s m e]; cbn; try discriminate.
  - destruct s; discriminate.
  - reflexivity.
  - destruct s; rewrite Z.compare_refl, Pos.compare_cont_refl; discriminate.
Qed.

Lemma Prim2SF_is_nan (a : float) :
  Prim2SF a = S754_nan -> PrimFloat.is_nan a = true.
Proof.
  intros H. unfold PrimFloat.is_nan. now rewrite eqb_spec, H.
Qed.

Lemma mul_nan (a : float) :
  Prim2SF a = S754_nan -> Prim2SF (PrimFloat.mul a a) = S754_nan.
Proof. intros H. now rewrite mul_spec, H. Qed.

Lemma add_nan_left (a b : float) :
  Prim2SF a = S754_nan -> Prim2SF (PrimFloat.add a b) = S754_nan.
Proof. intros H. now rewrite add_spec, H. Qed.

Lemma add_nan_right (a b : float) :
  Prim2SF b = S754_nan -> Prim2SF (PrimFloat.add a b) = S754_nan.
Proof.
  intros H. rewrite add_spec, H. unfold SF64add, SFadd.
  destruct (Prim2SF a); reflexivity.
Qed.

Lemma sub_nan_left (a b : float) :
  Prim2SF a = S754_nan -> Prim2SF (PrimFloat.sub a b) = S754_nan.
Proof. intros H. now rewrite sub_spec, H. Qed.

Lemma sqrt_nan (a : float) :
  Prim2SF a = S754_nan -> Prim2SF (PrimFloat.sqrt a) = S754_nan.
Proof. intros H. now rewrite sqrt_spec, H. Qed.

Lemma ltb_nan_left (a b : float) :
  Prim2SF a = S754_nan -> PrimFloat.ltb a b = false.
Proof. intros H. now rewrite ltb_spec, H. Qed.

Lemma ltb_nan_right (a b : float) :
  Prim2SF b = S754_nan -> PrimFloat.ltb a b = false.
Proof.
  intros H. rewrite ltb_spec, H. unfold SFltb, SFcompare.
  destruct (Prim2SF a); reflexivity.
Qed.

Lemma reach_distance_nan (target : Position3D float) (d : LegDimensions float) :
  PrimFloat.is_nan (x target) = true
  \/ PrimFloat.is_nan (y target) = true
  \/ PrimFloat.is_nan (z target) = true ->
  Prim2SF (reach_distance (num := float_scalar L) target d) = S754_nan.
Proof.
  intros H.
  unfold reach_distance, horizontal_reach, xy_distance.
  cbn [num_add num_sub num_mul num_sqrt float_scalar].
  apply sqrt_nan.
  destruct H as [H | [H | H]]; apply is_nan_Prim2SF in H.
  - apply add_nan_left, mul_nan, sub_nan_left, sqrt_nan, add_nan_left, mul_nan, H.
  - apply add_nan_left, mul_nan, sub_nan_left, sqrt_nan, add_nan_right, mul_nan, H.
  - apply add_nan_right, mul_nan, H.
Qed.

(** X10.  On doubles a target with a NaN among its coordinates is never
    rejected: [reach_distance] is a NaN, both comparisons of the
    reachability check are false, and [solve_ik] returns angles, so
    [is_reachable] answers true, for all dimensions. *)
Theorem nan_target_is_reachable
  (target : Position3D float) (d : LegDimensions float) :
  PrimFloat.is_nan (x target) = true
  \/ PrimFloat.is_nan (y target) = true
  \/ PrimFloat.is_nan (z target) = true ->
  PrimFloat.is_nan (reach_distance (num := float_scalar L) target d) = true
  /\ is_reachable (num := float_scalar L) target d = true.
Proof.
  intros H. pose proof (reach_distance_nan target d H) as Hr.
  split; [apply Prim2SF_is_nan, Hr | ].
  unfold is_reachable. rewrite solve_ik_eq.
  cbn [num_lt float_scalar].
  now rewrite (@ltb_nan_right _ _ Hr), (@ltb_nan_left _ _ Hr).
Qed.

End Binary64Edge.

(** * Properties of [servo_driver.c] *)

(** ** The driver's state and its checks, for every arithmetic *)

Section ServoFacts.

Context {T : Type} {num : Scalar T} {rnd : Rounding T}.

Local Open Scope Z_scope.

Lemma round_to_unsigned_range (max : Z) (v : T) (n : Z) :
  round_to_unsigned max v = Some n -> 0 <= n <= max.
Proof.
  unfold round_to_unsigned.
  destruct (num_round v) as [k | ]; [ | discriminate].
  destruct (0 <=? k) eqn:H0; [ | discriminate].
  destruct (k <=? max) eqn:H1; [ | discriminate].
  cbn. intros E; injection E as <-. lia.
Qed.

(** X12.  Whenever [pulse_to_register] returns, the value is a 12-bit
    register value, [0 .. 4095], whatever the pulse and the frequency. *)
Theorem pulse_to_register_twelve_bit (pulse_us pwm_freq r : Z) :
  pulse_to_register pulse_us pwm_freq = Some r -> 0 <= r <= 4095.
Proof.
  unfold pulse_to_register.
  destruct (round_to_unsigned 65535 _) as [v | ] eqn:E; [ | discriminate].
  apply round_to_unsigned_range in E.
  intros H; injection H as <-.
  destruct (4095 <? v) eqn:Hv; lia.
Qed.

Lemma servo_set_angle_uninitialized
  (channel : Z) (angle : T) (min_pulse max_pulse pwm_freq : Z) (s : Driver T) :
  i2c_handle s < 0 ->
  servo_set_angle channel angle min_pulse max_pulse pwm_freq s
  = Some (-1, printed s ErrNotInitialized).
Proof.
  intros H. unfold servo_set_angle, run_bind, get_handle.
  apply Z.ltb_lt in H. rewrite H. reflexivity.
Qed.

Lemma servo_set_angle_invalid_channel
  (channel : Z) (angle : T) (min_pulse max_pulse pwm_freq : Z) (s : Driver T) :
  0 <= i2c_handle s -> 15 < channel ->
  servo_set_angle channel angle min_pulse max_pulse pwm_freq s
  = Some (-1, printed s (ErrInvalidChannel channel)).
Proof.
  intros H Hc. unfold servo_set_angle, run_bind, get_handle.
  apply Z.ltb_ge in H. apply Z.ltb_lt in Hc. rewrite H, Hc. reflexivity.
Qed.

Lemma servo_set_angle_valid
  (channel : Z) (angle : T) (min_pulse max_pulse pwm_freq : Z) (s : Driver T) :
  0 <= i2c_handle s -> channel <= 15 ->
  servo_set_angle channel angle min_pulse max_pulse pwm_freq s
  = match angle_to_pulse angle min_pulse max_pulse with
    | Some pulse_us =>
        match pulse_to_register pulse_us pwm_freq with
        | Some pwm_value =>
            Some (0, printed s (OutSetAngle channel angle pulse_us pwm_value))
        | None => None
        end
    | None => None
    end.
Proof.
  intros H Hc. unfold servo_set_angle, run_bind, get_handle, run_lift.
  apply Z.ltb_ge in H. apply Z.ltb_ge in Hc. rewrite H, Hc.
  destruct (angle_to_pulse angle min_pulse max_pulse) as [p | ]; [ | reflexivity].
  destruct (pulse_to_register p pwm_freq); reflexivity.
Qed.

Lemma length_printed (s : Driver T) (o : Output T) :
  length (output (printed s o)) = S (length (output s)).
Proof. cbn. rewrite List.length_app. cbn. lia. Qed.

Lemma servo_set_angle_outcome
  (channel : Z) (angle : T) (min_pulse max_pulse pwm_freq : Z)
  (s s' : Driver T) (r : Z) :
  servo_set_angle channel angle min_pulse max_pulse pwm_freq s = Some (r, s') ->
  i2c_handle s' = i2c_handle s
  /\ length (output s') = S (length (output s))
  /\ (r = -1 <-> i2c_handle s < 0 \/ 15 < channel)
  /\ (r = 0 <-> 0 <= i2c_handle s /\ channel <= 15).
Proof.
  intros H.
  destruct (Z.lt_ge_cases (i2c_handle s) 0) as [Hh | Hh].
  - rewrite servo_set_angle_uninitialized in H by assumption.
    injection H as <- <-. rewrite length_printed. cbn [i2c_handle printed].
    repeat split; auto; lia.
  - destruct (Z.lt_ge_cases 15 channel) as [Hc | Hc].
    + rewrite servo_set_angle_invalid_channel in H by assumption.
      injection H as <- <-. rewrite length_printed. cbn [i2c_handle printed].
      repeat split; auto; lia.
    + rewrite servo_set_angle_valid in H by assumption.
      destruct (angle_to_pulse angle min_pulse max_pulse) as [p | ];
        [ | discriminate].
      destruct (pulse_to_register p pwm_freq) as [v | ]; [ | discriminate].
      injection H as <- <-. rewrite length_printed. cbn [i2c_handle printed].
      repeat split; auto; lia.
Qed.

(** X13.  Whenever [servo_set_angle] returns, it has printed exactly one
    line and left [i2c_handle] alone; it returns -1 exactly when the driver
    is not initialised or the channel is above 15, and 0 otherwise. *)
Theorem servo_set_angle_result
  (channel : Z) (angle : T) (min_pulse max_pulse pwm_freq : Z)
  (s s' : Driver T) (r : Z) :
  servo_set_angle channel angle min_pulse max_pulse pwm_freq s = Some (r, s') ->
  i2c_handle s' = i2c_handle s
  /\ length (output s') = S (length (output s))
  /\ (r = -1 <-> i2c_handle s < 0 \/ 15 < channel)
  /\ (r = 0 <-> 0 <= i2c_handle s /\ channel <= 15).
Proof. apply servo_set_angle_outcome. Qed.

Lemma servo_off_cases (channel : Z) (s : Driver T) :
  servo_off channel s
  = Some (if i2c_handle s <? 0 then (-1, printed s ErrNotInitialized)
          else if 15 <? channel then (-1, printed s (ErrInvalidChannel channel))
          else (0, printed s (OutOff channel))).
Proof.
  unfold servo_off, run_bind, get_handle.
  destruct (i2c_handle s <? 0); [reflexivity | ].
  destruct (15 <? channel); reflexivity.
Qed.

Lemma printed_all_printed (s : Driver T) (os : list (Output T)) (o : Output T) :
  printed_all (printed s o) os = printed_all s (o :: os).
Proof.
  unfold printed_all, printed; cbn [i2c_handle output].
  now rewrite <- List.app_assoc.
Qed.

Lemma printed_all_nil (s : Driver T) : printed_all s nil = s.
Proof.
  destruct s as [h o]. unfold printed_all; cbn [i2c_handle output].
  now rewrite List.app_nil_r.
Qed.

Lemma off_all_from_spec (n : nat) (c : Z) (s : Driver T) :
  off_all_from n c s
  = Some (tt, printed_all s (off_lines (0 <=? i2c_handle s) n c)).
Proof.
  revert c s. induction n as [ | n IH]; intros c s.
  - cbn. now rewrite printed_all_nil.
  - cbn [off_all_from off_lines]. unfold run_bind at 1.
    rewrite servo_off_cases.
    assert (E : forall r o, (let (_, s') := (r, printed s o) : Z * Driver T in
                             off_all_from n (c + 1) s')
                            = Some (tt, printed_all s
                                      (o :: off_lines (0 <=? i2c_handle s) n (c + 1)))).
    { intros r o. rewrite IH. cbn [i2c_handle printed].
      now rewrite printed_all_printed. }
    destruct (i2c_handle s <? 0) eqn:Hh.
    + rewrite (E (-1)). apply Z.ltb_lt in Hh.
      replace (0 <=? i2c_handle s) with false
        by (symmetry; apply Z.leb_gt; lia).
      reflexivity.
    + apply Z.ltb_ge in Hh.
      assert (Hle : (0 <=? i2c_handle s) = true) by (apply Z.leb_le; lia).
      destruct (15 <? c); [rewrite (E (-1)) | rewrite (E 0)];
        rewrite Hle; reflexivity.
Qed.

(** X14.  [servo_off_all] returns 0 in every state and leaves [i2c_handle]
    alone.  On an initialised driver it prints the sixteen lines of the
    channels 0 to 15 in order; on one that is not initialised every
    [servo_off] fails, sixteen errors are printed, and the result is still
    0. *)
Theorem servo_off_all_returns_zero (s : Driver T) :
  exists s',
    servo_off_all s = Some (0, s')
    /\ i2c_handle s' = i2c_handle s
    /\ output s'
       = (output s
          ++ if 0 <=? i2c_handle s
             then List.map OutOff
                    (0 :: 1 :: 2 :: 3 :: 4 :: 5 :: 6 :: 7 :: 8 :: 9 :: 10
                       :: 11 :: 12 :: 13 :: 14 :: 15 :: nil)
             else List.repeat ErrNotInitialized 16)%list.
Proof.
  unfold servo_off_all, run_bind. rewrite off_all_from_spec.
  eexists; split; [reflexivity | ].
  cbn [i2c_handle output printed_all]. split; [reflexivity | ].
  destruct (0 <=? i2c_handle s); reflexivity.
Qed.

(** X15.  The life cycle of the driver.  [servo_driver_init], when it
    returns, returns 0 with [i2c_handle = 1], and
    [servo_driver_is_initialized] then answers 1.  [servo_driver_close]
    always returns, leaves a negative handle, after which
    [servo_driver_is_initialized] answers 0 and [servo_set_angle] and
    [servo_off] return -1; closing again changes nothing. *)
Theorem driver_life_cycle (s : Driver T) :
  (forall i2c_bus i2c_addr pwm_freq r s',
      servo_driver_init i2c_bus i2c_addr pwm_freq s = Some (r, s') ->
      r = 0 /\ i2c_handle s' = 1
      /\ servo_driver_is_initialized s' = Some (1, s'))
  /\ exists s',
       servo_driver_close s = Some (tt, s')
       /\ i2c_handle s' < 0
       /\ servo_driver_is_initialized s' = Some (0, s')
       /\ servo_driver_close s' = Some (tt, s')
       /\ (forall channel angle min_pulse max_pulse pwm_freq,
              servo_set_angle channel angle min_pulse max_pulse pwm_freq s'
              = Some (-1, printed s' ErrNotInitialized))
       /\ (forall channel,
              servo_off channel s' = Some (-1, printed s' ErrNotInitialized)).
Proof.
  split.
  - intros b a f r s' H.
    unfold servo_driver_init, run_bind, print, set_handle, run_lift, run_ret in H.
    destruct (init_prescale f) as [p | ]; [ | discriminate].
    injection H as <- <-. repeat split.
  - unfold servo_driver_close, run_bind, get_handle.
    destruct (0 <=? i2c_handle s) eqn:Hh.
    + eexists; split; [reflexivity | ].
      cbn [i2c_handle]. repeat split; lia.
    + apply Z.leb_gt in Hh.
      exists s. split; [reflexivity | ].
      assert (Hlt : (i2c_handle s <? 0) = true) by (apply Z.ltb_lt; lia).
      assert (Hle : (0 <=? i2c_handle s) = false) by (apply Z.leb_gt; lia).
      repeat split; try lia.
      * unfold servo_driver_is_initialized, run_bind, get_handle, run_ret.
        now rewrite Hle.
      * now rewrite Hle.
      * intros. now apply servo_set_angle_uninitialized.
      * intros. rewrite servo_off_cases, Hlt. reflexivity.
Qed.

Lemma set_multiple_from_step (n i : nat) (channels : list Z) (angles : list T)
  (min_pulse max_pulse pwm_freq : Z) (s : Driver T) :
  set_multiple_from (S n) i channels angles min_pulse max_pulse pwm_freq s
  = match List.nth_error channels i, List.nth_error angles i with
    | Some channel, Some angle =>
        match servo_set_angle channel angle min_pulse max_pulse pwm_freq s with
        | Some (result, s1) =>
            if negb (result =? 0) then Some (-1, s1)
            else set_multiple_from n (S i) channels angles
                   min_pulse max_pulse pwm_freq s1
        | None => None
        end
    | _, _ => None
    end.
Proof.
  cbn [set_multiple_from]. unfold run_bind, run_lift.
  destruct (List.nth_error channels i) as [ch | ]; [ | reflexivity].
  destruct (List.nth_error angles i) as [a | ]; [ | reflexivity].
  destruct (servo_set_angle ch a min_pulse max_pulse pwm_freq s)
    as [[r s1] | ]; [ | reflexivity].
  destruct (negb (r =? 0)); reflexivity.
Qed.

Lemma set_multiple_from_spec (channels : list Z) (angles : list T)
  (min_pulse max_pulse pwm_freq : Z) (n : nat) :
  forall (i : nat) (s s' : Driver T) (r : Z),
    set_multiple_from n i channels angles min_pulse max_pulse pwm_freq s
    = Some (r, s') ->
    i2c_handle s' = i2c_handle s
    /\ ((r = 0
         /\ length (output s') = (length (output s) + n)%nat
         /\ forall j, (j < n)%nat ->
              0 <= i2c_handle s
              /\ exists ch, List.nth_error channels (i + j) = Some ch /\ ch <= 15)
        \/ (r = -1
            /\ exists k ch,
                 (k < n)%nat
                 /\ List.nth_error channels (i + k) = Some ch
                 /\ (i2c_handle s < 0 \/ 15 < ch)
                 /\ length (output s') = (length (output s) + k + 1)%nat
                 /\ forall j, (j < k)%nat ->
                      0 <= i2c_handle s
                      /\ exists ch', List.nth_error channels (i + j) = Some ch'
                                     /\ ch' <= 15)).
Proof.
  induction n as [ | n IH]; intros i s s' r H.
  - cbn in H. injection H as <- <-.
    split; [reflexivity | left].
    repeat split; lia.
  - rewrite set_multiple_from_step in H.
    destruct (List.nth_error channels i) as [ch | ] eqn:Ech; [ | discriminate].
    destruct (List.nth_error angles i) as [a | ]; [ | discriminate].
    destruct (servo_set_angle ch a min_pulse max_pulse pwm_freq s)
      as [[r1 s1] | ] eqn:E1; [ | discriminate].
    destruct (servo_set_angle_outcome _ _ _ _ _ _ E1) as (Hh & Hlen & Hneg & Hzero).
    destruct (r1 =? 0) eqn:Hr1; cbn [negb] in H.
    + apply Z.eqb_eq in Hr1. subst r1.
      destruct Hzero as [Hzero _]. specialize (Hzero eq_refl).
      destruct (IH _ _ _ _ H) as (Hh' & [(-> & Hlen' & Hall) | (-> & k & ch' & Hk & Ek & Hbad & Hlen' & Hpre)]).
      * split; [congruence | left].
        split; [reflexivity | ]. split; [lia | ].
        intros j Hj. split; [lia | ].
        destruct j as [ | j].
        -- exists ch. rewrite Nat.add_0_r. split; [assumption | lia].
        -- destruct (Hall j ltac:(lia)) as (_ & c & Ec & Hc).
           exists c. replace (i + S j)%nat with (S i + j)%nat by lia. auto.
      * split; [congruence | right].
        split; [reflexivity | ].
        exists (S k), ch'.
        split; [ | split; [ | split; [ | split]]].
        -- lia.
        -- replace (i + S k)%nat with (S i + k)%nat by lia. assumption.
        -- rewrite <- Hh. assumption.
        -- lia.
        -- intros j Hj. split; [lia | ]. destruct j as [ | j].
           ++ exists ch. rewrite Nat.add_0_r. split; [assumption | lia].
           ++ destruct (Hpre j ltac:(lia)) as (_ & c & Ec & Hc).
              exists c. replace (i + S j)%nat with (S i + j)%nat by lia. auto.
    + injection H as <- <-.
      apply Z.eqb_neq in Hr1.
      assert (Hbad : i2c_handle s < 0 \/ 15 < ch) by lia.
      split; [assumption | right].
      split; [reflexivity | ].
      exists 0%nat, ch.
      split; [ | split; [ | split; [ | split]]].
      * lia.
      * now rewrite Nat.add_0_r.
      * assumption.
      * lia.
      * intros j Hj. lia.
Qed.


(** X17.  With [count <= 0], [servo_set_multiple] returns 0 and does
    nothing, whether or not the driver is initialised and whatever the
    arrays hold; with a positive [count] and a driver not initialised it
    returns -1 at the first servo. *)
Theorem servo_set_multiple_edge
  (channels : list Z) (angles : list T) (count : Z)
  (min_pulse max_pulse pwm_freq : Z) (s : Driver T) :
  (count <= 0 ->
   servo_set_multiple channels angles count min_pulse max_pulse pwm_freq s
   = Some (0, s))
  /\ (0 < count -> i2c_handle s < 0 ->
      forall ch a, List.nth_error channels 0 = Some ch ->
                   List.nth_error angles 0 = Some a ->
      servo_set_multiple channels angles count min_pulse max_pulse pwm_freq s
      = Some (-1, printed s ErrNotInitialized)).
Proof.
  unfold servo_set_multiple. split.
  - intros H. replace (Z.to_nat count) with 0%nat by lia. reflexivity.
  - intros Hc Hh ch a Ech Ea.
    destruct (Z.to_nat count) as [ | n] eqn:En; [lia | ].
    rewrite set_multiple_from_step, Ech, Ea.
    rewrite servo_set_angle_uninitialized by assumption. reflexivity.
Qed.

End ServoFacts.

(** ** Exact arithmetic: from angle to pulse to register *)

Section ExactServo.

Import Exact ExactRounding.
Local Open Scope R_scope.

Lemma Int_part_le (r : R) (n : Z) : r < IZR n + 1 -> (Int_part r <= n)%Z.
Proof.
  intros H. destruct (base_Int_part r) as [H1 _].
  assert (IZR (Int_part r) < IZR (n + 1)) by (rewrite plus_IZR; lra).
  apply lt_IZR in H0. lia.
Qed.

Lemma Int_part_ge (r : R) (n : Z) : IZR n <= r -> (n <= Int_part r)%Z.
Proof.
  intros H. destruct (base_Int_part r) as [_ H2].
  assert (IZR (n - 1) < IZR (Int_part r)) by (rewrite minus_IZR; lra).
  apply lt_IZR in H0. lia.
Qed.

Lemma round_half_away_between (v : R) (lo hi : Z) :
  IZR lo <= v <= IZR hi -> (lo <= round_half_away v <= hi)%Z.
Proof.
  intros [Hlo Hhi]. unfold round_half_away.
  destruct (Rle_dec 0 v).
  - split; [apply Int_part_ge | apply Int_part_le]; lra.
  - assert (- hi <= Int_part (- v + / 2) <= - lo)%Z; [ | lia].
    split; [apply Int_part_ge | apply Int_part_le]; rewrite opp_IZR; lra.
Qed.

Lemma round_half_away_increasing (v w : R) :
  v <= w -> (round_half_away v <= round_half_away w)%Z.
Proof.
  intros H. unfold round_half_away.
  destruct (Rle_dec 0 v), (Rle_dec 0 w); try lra.
  - apply Int_part_le.
    destruct (base_Int_part (v + / 2)) as [H1 _].
    destruct (base_Int_part (w + / 2)) as [_ H2]. lra.
  - assert (0 <= Int_part (w + / 2))%Z by (apply Int_part_ge; lra).
    assert (0 <= Int_part (- v + / 2))%Z by (apply Int_part_ge; lra).
    lia.
  - assert (Int_part (- w + / 2) <= Int_part (- v + / 2))%Z; [ | lia].
    apply Int_part_le.
    destruct (base_Int_part (- w + / 2)) as [H1 _].
    destruct (base_Int_part (- v + / 2)) as [_ H2]. lra.
Qed.

Lemma Int_part_quotient (n d : Z) :
  (0 < d)%Z -> Int_part (IZR n / IZR d) = (n / d)%Z.
Proof.
  intros Hd. symmetry. apply Int_part_spec.
  assert (Hd' : 0 < IZR d) by now apply IZR_lt.
  pose proof (Z.mul_div_le n d Hd) as H1.
  pose proof (Z.mul_succ_div_gt n d Hd) as H2.
  apply IZR_le in H1. apply IZR_lt in H2.
  rewrite mult_IZR in H1. rewrite mult_IZR, succ_IZR in H2.
  assert (E : IZR n / IZR d * IZR d = IZR n) by (field; lra).
  split.
  - apply Rmult_lt_reg_r with (IZR d); [assumption | ]. nra.
  - apply Rmult_le_reg_r with (IZR d); [assumption | ]. nra.
Qed.

Lemma servo_clamped_spec (a : R) :
  0 <= servo_clamped a <= 180
  /\ (a <= 0 -> servo_clamped a = 0)
  /\ (180 <= a -> servo_clamped a = 180)
  /\ (0 <= a <= 180 -> servo_clamped a = a).
Proof.
  unfold servo_clamped, Rltb.
  destruct (Rlt_dec a 0); [ destruct (Rlt_dec 180 0); lra | ].
  destruct (Rlt_dec 180 a); lra.
Qed.

Lemma servo_clamped_increasing (a b : R) :
  a <= b -> servo_clamped a <= servo_clamped b.
Proof.
  intros H. unfold servo_clamped, Rltb.
  destruct (Rlt_dec a 0), (Rlt_dec b 0);
    repeat match goal with
           | |- context [Rlt_dec ?u ?v] => destruct (Rlt_dec u v)
           end; lra.
Qed.

Lemma angle_to_pulse_real (a : R) (min_pulse max_pulse : Z) :
  angle_to_pulse a min_pulse max_pulse
  = round_to_unsigned 65535
      (IZR min_pulse + servo_clamped a / 180 * (IZR max_pulse - IZR min_pulse)).
Proof.
  unfold angle_to_pulse, servo_clamped.
  cbn [num_lt num_add num_mul num_div lit real_scalar].
  now rewrite minus_IZR.
Qed.

Lemma round_to_unsigned_real (max : Z) (v : R) :
  (0 <= round_half_away v <= max)%Z ->
  round_to_unsigned max v = Some (round_half_away v).
Proof.
  intros [H0 H1]. unfold round_to_unsigned. cbn [num_round real_rounding].
  apply Z.leb_le in H0, H1. now rewrite H0, H1.
Qed.

Lemma interpolation_between (t : R) (lo hi : Z) :
  0 <= t <= 1 ->
  IZR (Z.min lo hi) <= IZR lo + t * (IZR hi - IZR lo) <= IZR (Z.max lo hi).
Proof.
  intros Ht.
  destruct (Z.le_ge_cases lo hi) as [H | H].
  - rewrite Z.min_l, Z.max_r by assumption. apply IZR_le in H. nra.
  - rewrite Z.min_r, Z.max_l by assumption. apply IZR_le in H. nra.
Qed.

Lemma angle_to_pulse_defined (a : R) (min_pulse max_pulse : Z) :
  (0 <= min_pulse <= 65535)%Z -> (0 <= max_pulse <= 65535)%Z ->
  exists p,
    angle_to_pulse a min_pulse max_pulse = Some p
    /\ (Z.min min_pulse max_pulse <= p <= Z.max min_pulse max_pulse)%Z.
Proof.
  intros Hmin Hmax.
  destruct (servo_clamped_spec a) as (Hc & _).
  set (t := servo_clamped a / 180).
  assert (Ht : 0 <= t <= 1) by (unfold t; lra).
  pose proof (interpolation_between min_pulse max_pulse Ht) as Hv.
  pose proof (round_half_away_between _ _ Hv) as Hp.
  rewrite angle_to_pulse_real. fold t.
  eexists. split; [apply round_to_unsigned_real; lia | exact Hp].
Qed.

(** X18.  In exact arithmetic, with both pulse widths in the range of
    [uint16_t], [angle_to_pulse] returns for every angle a pulse between the
    two widths; an angle of 0 or less gives [min_pulse] and one of 180 or
    more gives [max_pulse]. *)
Theorem angle_to_pulse_between (a : R) (min_pulse max_pulse : Z) :
  (0 <= min_pulse <= 65535)%Z -> (0 <= max_pulse <= 65535)%Z ->
  exists p,
    angle_to_pulse a min_pulse max_pulse = Some p
    /\ (Z.min min_pulse max_pulse <= p <= Z.max min_pulse max_pulse)%Z
    /\ (a <= 0 -> p = min_pulse)
    /\ (180 <= a -> p = max_pulse).
Proof.
  intros Hmin Hmax.
  destruct (servo_clamped_spec a) as (Hc & Hlow & Hhigh & _).
  set (t := servo_clamped a / 180).
  assert (Ht : 0 <= t <= 1) by (unfold t; lra).
  pose proof (interpolation_between min_pulse max_pulse Ht) as Hv.
  pose proof (round_half_away_between _ _ Hv) as Hp.
  rewrite angle_to_pulse_real. fold t.
  eexists. split; [apply round_to_unsigned_real; lia | ].
  split; [exact Hp | split].
  - intros Ha. unfold t. rewrite (Hlow Ha).
    replace (IZR min_pulse + 0 / 180 * (IZR max_pulse - IZR min_pulse))
      with (IZR min_pulse) by (unfold Rdiv; ring).
    pose proof (@round_half_away_between (IZR min_pulse) min_pulse min_pulse
                  ltac:(lra)). lia.
  - intros Ha. unfold t. rewrite (Hhigh Ha).
    replace (IZR min_pulse + 180 / 180 * (IZR max_pulse - IZR min_pulse))
      with (IZR max_pulse) by field.
    pose proof (@round_half_away_between (IZR max_pulse) max_pulse max_pulse
                  ltac:(lra)). lia.
Qed.

(** X19.  In exact arithmetic, with [min_pulse <= max_pulse], a larger
    angle never gets a shorter pulse. *)
Theorem angle_to_pulse_increasing (a b : R) (min_pulse max_pulse p q : Z) :
  (min_pulse <= max_pulse)%Z ->
  a <= b ->
  angle_to_pulse a min_pulse max_pulse = Some p ->
  angle_to_pulse b min_pulse max_pulse = Some q ->
  (p <= q)%Z.
Proof.
  intros Hm Hab. rewrite !angle_to_pulse_real.
  unfold round_to_unsigned. cbn [num_round real_rounding].
  set (va := IZR min_pulse + servo_clamped a / 180 * (IZR max_pulse - IZR min_pulse)).
  set (vb := IZR min_pulse + servo_clamped b / 180 * (IZR max_pulse - IZR min_pulse)).
  assert (Hv : va <= vb).
  { unfold va, vb. pose proof (servo_clamped_increasing Hab).
    apply IZR_le in Hm. nra. }
  pose proof (round_half_away_increasing Hv).
  destruct ((0 <=? round_half_away va)%Z && (round_half_away va <=? 65535)%Z);
    [ | discriminate].
  destruct ((0 <=? round_half_away vb)%Z && (round_half_away vb <=? 65535)%Z);
    [ | discriminate].
  intros E1 E2. injection E1 as <-. injection E2 as <-. assumption.
Qed.

Lemma register_duty_real (pulse_us pwm_freq : Z) :
  (0 < pwm_freq)%Z ->
  IZR pulse_us / (1000000 / IZR pwm_freq) * 4096 + / 2
  = IZR (pulse_us * pwm_freq * 8192 + 1000000) / IZR 2000000.
Proof.
  intros Hf. apply IZR_lt in Hf.
  rewrite plus_IZR, !mult_IZR. field. lra.
Qed.

Lemma pulse_to_register_real (pulse_us pwm_freq : Z) :
  (0 < pwm_freq)%Z -> (0 <= pulse_us)%Z ->
  pulse_to_register pulse_us pwm_freq
  = if ((pulse_us * pwm_freq * 8192 + 1000000) / 2000000 <=? 65535)%Z
    then Some (Z.min 4095 ((pulse_us * pwm_freq * 8192 + 1000000) / 2000000))
    else None.
Proof.
  intros Hf Hp.
  set (q := ((pulse_us * pwm_freq * 8192 + 1000000) / 2000000)%Z).
  unfold pulse_to_register, round_to_unsigned.
  cbn [num_mul num_div lit num_round real_scalar real_rounding].
  assert (Hx : 0 <= IZR pulse_us / (1000000 / IZR pwm_freq) * 4096).
  { apply IZR_lt in Hf. apply IZR_le in Hp.
    replace (IZR pulse_us / (1000000 / IZR pwm_freq) * 4096)
      with (IZR pulse_us * IZR pwm_freq * (4096 / 1000000)) by (field; lra).
    apply Rmult_le_pos; [nra | lra]. }
  assert (Er : round_half_away (IZR pulse_us / (1000000 / IZR pwm_freq) * 4096)
               = q).
  { unfold round_half_away.
    destruct (Rle_dec 0 _) as [_ | Hn]; [ | contradiction].
    rewrite register_duty_real by assumption.
    apply Int_part_quotient. lia. }
  rewrite Er.
  assert (Hq : (0 <= q)%Z) by (unfold q; apply Z.div_pos; nia).
  apply Z.leb_le in Hq. rewrite Hq. cbn [andb].
  destruct (q <=? 65535)%Z; [ | reflexivity].
  f_equal. destruct (4095 <? q)%Z eqn:H; [apply Z.ltb_lt in H | apply Z.ltb_ge in H]; lia.
Qed.

(** X20.  In exact arithmetic, for a positive frequency and a pulse that is
    not negative, [pulse_to_register] is integer arithmetic: with
    [q = (pulse_us * pwm_freq * 8192 + 1000000) / 2000000], rounded down,
    it returns [q] capped at 4095 when [q <= 65535].  Beyond that the
    conversion to [uint16_t] comes before the cap and the behaviour is
    undefined. *)
Theorem pulse_to_register_closed_form (pulse_us pwm_freq : Z) :
  (0 < pwm_freq)%Z -> (0 <= pulse_us)%Z ->
  pulse_to_register pulse_us pwm_freq
  = let q := ((pulse_us * pwm_freq * 8192 + 1000000) / 2000000)%Z in
    if (q <=? 65535)%Z then Some (Z.min 4095 q) else None.
Proof. intros Hf Hp. cbv zeta. now apply pulse_to_register_real. Qed.

(** X21.  In exact arithmetic, on an initialised driver, for a channel of
    [0 .. 15], pulse widths in the range of [uint16_t] and no longer than
    the period of a positive frequency: [servo_set_angle] returns 0 for
    every angle and prints one line, with a pulse between the two widths
    and a register value of [0 .. 4095]. *)
Theorem servo_set_angle_succeeds
  (channel : Z) (angle : R) (min_pulse max_pulse pwm_freq : Z)
  (s : Driver R) :
  (0 <= i2c_handle s)%Z ->
  (channel <= 15)%Z ->
  (0 <= min_pulse <= 65535)%Z -> (0 <= max_pulse <= 65535)%Z ->
  (0 < pwm_freq)%Z ->
  (Z.max min_pulse max_pulse * pwm_freq <= 1000000)%Z ->
  exists pulse_us pwm_value,
    servo_set_angle channel angle min_pulse max_pulse pwm_freq s
    = Some (0%Z, printed s (OutSetAngle channel angle pulse_us pwm_value))
    /\ (Z.min min_pulse max_pulse <= pulse_us <= Z.max min_pulse max_pulse)%Z
    /\ (0 <= pwm_value <= 4095)%Z.
Proof.
  intros Hh Hc Hmin Hmax Hf Hper.
  destruct (angle_to_pulse_defined angle Hmin Hmax) as (p & Ep & Hp).
  assert (Hp0 : (0 <= p)%Z) by lia.
  pose proof (pulse_to_register_real Hf Hp0) as Ev.
  set (q := ((p * pwm_freq * 8192 + 1000000) / 2000000)%Z) in Ev.
  assert (Hq : (0 <= q <= 65535)%Z).
  { unfold q. split; [apply Z.div_pos; nia | ].
    apply Z.div_le_upper_bound; nia. }
  replace (q <=? 65535)%Z with true in Ev by (symmetry; apply Z.leb_le; lia).
  exists p, (Z.min 4095 q).
  rewrite servo_set_angle_valid, Ep, Ev by assumption.
  repeat split; lia.
Qed.

End ExactServo.

(** ** Doubles: the prescaler and the register value, frequency by frequency *)

Section Binary64Servo.

Import Stdlib.Floats.Floats.
Import Binary64 Binary64Rounding.

Variable L : Libm.

Local Open Scope Z_scope.

Lemma forall_from_spec (P : Z -> bool) (n : nat) :
  forall c, forall_from n c P = true ->
  forall v, c <= v < c + Z.of_nat n -> P v = true.
Proof.
  induction n as [ | n IH]; intros c H v Hv.
  - lia.
  - cbn [forall_from] in H. apply andb_prop in H. destruct H as [H0 H1].
    destruct (Z.eq_dec v c) as [-> | Hne]; [assumption | ].
    apply (IH (c + 1) H1). lia.
Qed.

Lemma prescale_agrees_everywhere :
  forall_from (Z.to_nat 65536) 0 (prescale_agrees L) = true.
Proof. vm_compute. reflexivity. Qed.

Lemma init_prescale_binary64 (pwm_freq : Z) :
  0 <= pwm_freq <= 65535 ->
  init_prescale (num := float_scalar L) pwm_freq
  = if pwm_freq <? 24 then None else Some (prescale_formula pwm_freq).
Proof.
  intros H.
  pose proof (@forall_from_spec _ _ _ prescale_agrees_everywhere pwm_freq
                ltac:(rewrite Z2Nat.id; lia)) as A.
  unfold prescale_agrees in A.
  destruct (init_prescale (num := float_scalar L) pwm_freq) as [p | ].
  - apply andb_prop in A. destruct A as [A1 A2].
    apply Z.leb_le in A1. apply Z.eqb_eq in A2. subst p.
    replace (pwm_freq <? 24) with false by (symmetry; apply Z.ltb_ge; lia).
    reflexivity.
  - now rewrite A.
Qed.

Lemma prescale_formula_wraps (pwm_freq : Z) :
  12208 <= pwm_freq -> prescale_formula pwm_freq = 255.
Proof.
  intros H. unfold prescale_formula.
  rewrite Z.div_small by lia. reflexivity.
Qed.

(** X23.  [servo_driver_init] on doubles, for every [pwm_freq] of
    [uint16_t].  Below 24 Hz (0 included) the quotient rounds to more than
    255 or is infinite, and its conversion to [uint8_t] is undefined.  From
    24 Hz on the call returns 0, sets [i2c_handle] to 1 and prints the
    prescaler [round (25000000 / (4096 * pwm_freq)) - 1]; from 12208 Hz on
    the quotient rounds to 0 and the prescaler wraps around to 255. *)
Theorem servo_driver_init_binary64
  (i2c_bus i2c_addr pwm_freq : Z) (s : Driver float) :
  0 <= pwm_freq <= 65535 ->
  servo_driver_init (num := float_scalar L) i2c_bus i2c_addr pwm_freq s
  = (if pwm_freq <? 24 then None
     else Some (0, {| i2c_handle := 1;
                      output := (output s
                                 ++ OutInit i2c_bus i2c_addr pwm_freq
                                 :: OutPrescale (prescale_formula pwm_freq)
                                 :: nil)%list |}))
  /\ (12208 <= pwm_freq -> prescale_formula pwm_freq = 255).
Proof.
  intros H. split; [ | apply prescale_formula_wraps].
  unfold servo_driver_init, run_bind, print, set_handle, run_lift, run_ret.
  cbn [i2c_handle output].
  rewrite init_prescale_binary64 by assumption.
  destruct (pwm_freq <? 24); [reflexivity | ].
  cbn [i2c_handle output]. now rewrite <- List.app_assoc.
Qed.

Lemma register_agrees_at_50 :
  forall_from (Z.to_nat 65536) 0 (register_agrees L 50) = true.
Proof. vm_compute. reflexivity. Qed.

(** X24.  [pulse_to_register] on doubles at 50 Hz, the frequency of servos:
    for every pulse width of [uint16_t] the value returned is the one of
    integer arithmetic, [(pulse_us * 50 * 8192 + 1000000) / 2000000]
    capped at 4095. *)
Theorem pulse_to_register_binary64_50Hz (pulse_us : Z) :
  0 <= pulse_us <= 65535 ->
  pulse_to_register (num := float_scalar L) pulse_us 50
  = Some (Z.min 4095 ((pulse_us * 50 * 8192 + 1000000) / 2000000)).
Proof.
  intros H.
  pose proof (@forall_from_spec _ _ _ register_agrees_at_50 pulse_us
                ltac:(rewrite Z2Nat.id; lia)) as A.
  unfold register_agrees, register_formula in A.
  destruct (pulse_to_register (num := float_scalar L) pulse_us 50) as [r | ];
    [ | discriminate].
  apply Z.eqb_eq in A. now subst r.
Qed.

Lemma div_nan_left (a b : float) :
  Prim2SF a = S754_nan -> Prim2SF (PrimFloat.div a b) = S754_nan.
Proof. intros H. now rewrite div_spec, H. Qed.

Lemma mul_nan_left (a b : float) :
  Prim2SF a = S754_nan -> Prim2SF (PrimFloat.mul a b) = S754_nan.
Proof. intros H. now rewrite mul_spec, H. Qed.

(** X25.  On doubles the two [if]s of [angle_to_pulse] let a NaN through
    (unlike [clamp_angle], which turns it into 180): the pulse is a NaN,
    its conversion to [uint16_t] is undefined, and so is [servo_set_angle]
    on an initialised driver and a valid channel. *)
Theorem angle_to_pulse_nan
  (angle : float) (channel min_pulse max_pulse pwm_freq : Z)
  (s : Driver float) :
  PrimFloat.is_nan angle = true ->
  angle_to_pulse (num := float_scalar L) angle min_pulse max_pulse = None
  /\ (0 <= i2c_handle s -> channel <= 15 ->
      servo_set_angle (num := float_scalar L)
        channel angle min_pulse max_pulse pwm_freq s = None).
Proof.
  intros H. apply is_nan_Prim2SF in H.
  assert (E : angle_to_pulse (num := float_scalar L) angle min_pulse max_pulse
              = None).
  { unfold angle_to_pulse, round_to_unsigned.
    cbn [num_lt num_add num_mul num_div num_round float_scalar float_rounding].
    rewrite (@ltb_nan_left angle _ H).
    rewrite (@ltb_nan_right _ angle H).
    unfold float_round.
    now rewrite (@add_nan_right _ _ (@mul_nan_left _ _ (@div_nan_left _ _ H))). }
  split; [exact E | ].
  intros Hh Hc. rewrite servo_set_angle_valid by assumption. now rewrite E.
Qed.

End Binary64Servo.

(** ** The handle over a sequence of calls *)

Section ServoCalls.

Context {T : Type} {num : Scalar T} {rnd : Rounding T}.

Local Open Scope Z_scope.

Lemma run_call_handle (c : Call) (b : bool) (s s' : Driver T) (r : Z) :
  i2c_handle s = (if b then 1 else -1) ->
  run_call c s = Some (r, s') ->
  i2c_handle s' = if initialized_after (c :: nil) b then 1 else -1.
Proof.
  intros Hb H. destruct c; cbn [run_call initialized_after] in *.
  - unfold servo_driver_init, run_bind, print, set_handle, run_lift, run_ret in H.
    destruct (init_prescale pwm_freq) as [p | ]; [ | discriminate].
    injection H as <- <-. reflexivity.
  - destruct (servo_set_angle_outcome _ _ _ _ _ _ H) as (E & _). congruence.
  - unfold servo_set_multiple in H.
    destruct (set_multiple_from_spec _ _ _ _ _ _ _ _ H) as (E & _). congruence.
  - rewrite servo_off_cases in H.
    destruct (i2c_handle s <? 0); [ | destruct (15 <? channel)];
      injection H as <- <-; exact Hb.
  - unfold servo_off_all, run_bind in H. rewrite off_all_from_spec in H.
    injection H as <- <-. exact Hb.
  - cbv [run_bind servo_driver_close get_handle run_ret print set_handle] in H.
    destruct (0 <=? i2c_handle s) eqn:Hh; injection H as <- <-.
    + reflexivity.
    + apply Z.leb_gt in Hh. destruct b; [lia | exact Hb].
  - unfold servo_driver_is_initialized, run_bind, get_handle, run_ret in H.
    injection H as <- <-. exact Hb.
Qed.

Lemma run_calls_handle (cs : list Call) :
  forall (b : bool) (s s' : Driver T),
    i2c_handle s = (if b then 1 else -1) ->
    run_calls cs s = Some s' ->
    i2c_handle s' = if initialized_after cs b then 1 else -1.
Proof.
  induction cs as [ | c cs IH]; intros b s s' Hb H.
  - cbn in H. injection H as <-. exact Hb.
  - cbn [run_calls] in H.
    destruct (run_call c s) as [[r s1] | ] eqn:E; [ | discriminate].
    pose proof (@run_call_handle c b s s1 r Hb E) as H1.
    specialize (IH _ _ _ H1 H).
    rewrite IH. destruct c; reflexivity.
Qed.

(** X26.  Over any sequence of calls from the start of the program,
    [i2c_handle] is 1 or -1, and it is 1 exactly when the last call of
    [servo_driver_init] or [servo_driver_close] in the sequence is an init:
    no other function changes it. *)
Theorem handle_follows_init_and_close (cs : list Call) (s : Driver T) :
  run_calls cs driver_start = Some s ->
  i2c_handle s = (if initialized_after cs false then 1 else -1)
  /\ servo_driver_is_initialized s
     = Some ((if initialized_after cs false then 1 else 0), s).
Proof.
  intros H.
  pose proof (@run_calls_handle cs false driver_start s eq_refl H) as E.
  split; [exact E | ].
  unfold servo_driver_is_initialized, run_bind, get_handle, run_ret.
  rewrite E. destruct (initialized_after cs false); reflexivity.
Qed.

End ServoCalls.

(** * Instances of the further properties *)

Section ExactInstances.

Import Exact ExactRounding.
Local Open Scope R_scope.

Lemma angle_to_pulse_at_low (a : R) (min_pulse max_pulse : Z) :
  (0 <= min_pulse <= 65535)%Z -> a <= 0 ->
  angle_to_pulse a min_pulse max_pulse = Some min_pulse.
Proof.
  intros Hmin Ha. destruct (servo_clamped_spec a) as (_ & Hlow & _).
  rewrite angle_to_pulse_real, (Hlow Ha).
  replace (IZR min_pulse + 0 / 180 * (IZR max_pulse - IZR min_pulse))
    with (IZR min_pulse) by (unfold Rdiv; ring).
  pose proof (@round_half_away_between (IZR min_pulse) min_pulse min_pulse
                ltac:(lra)) as B.
  rewrite round_to_unsigned_real by lia. f_equal. lia.
Qed.

Lemma angle_to_pulse_at_high (a : R) (min_pulse max_pulse : Z) :
  (0 <= max_pulse <= 65535)%Z -> 180 <= a ->
  angle_to_pulse a min_pulse max_pulse = Some max_pulse.
Proof.
  intros Hmax Ha. destruct (servo_clamped_spec a) as (_ & _ & Hhigh & _).
  rewrite angle_to_pulse_real, (Hhigh Ha).
  replace (IZR min_pulse + 180 / 180 * (IZR max_pulse - IZR min_pulse))
    with (IZR max_pulse) by field.
  pose proof (@round_half_away_between (IZR max_pulse) max_pulse max_pulse
                ltac:(lra)) as B.
  rewrite round_to_unsigned_real by lia. f_equal. lia.
Qed.

(** X18, witness: an angle of 200 degrees between 500 and 2500
    microseconds. *)
Lemma angle_to_pulse_between_witness :
  exists p,
    angle_to_pulse 200 500 2500 = Some p
    /\ (Z.min 500 2500 <= p <= Z.max 500 2500)%Z
    /\ (200 <= 0 -> p = 500%Z)
    /\ (180 <= 200 -> p = 2500%Z).
Proof.
  apply (@angle_to_pulse_between 200 500 2500); lia.
Defined.

(** X19, witness: the two ends of the range. *)
Lemma angle_to_pulse_increasing_witness : (500 <= 2500)%Z.
Proof.
  apply (@angle_to_pulse_increasing (-1) 181 500 2500 500 2500).
  - lia.
  - lra.
  - apply angle_to_pulse_at_low; [lia | lra].
  - apply angle_to_pulse_at_high; [lia | lra].
Defined.

(** X20, witness: 1500 microseconds at 50 Hz. *)
Lemma pulse_to_register_closed_form_witness :
  pulse_to_register 1500 50
  = let q := ((1500 * 50 * 8192 + 1000000) / 2000000)%Z in
    if (q <=? 65535)%Z then Some (Z.min 4095 q) else None.
Proof.
  apply (@pulse_to_register_closed_form 1500 50); lia.
Defined.

(** X21, witness: channel 0 of a driver just initialised. *)
Lemma servo_set_angle_succeeds_witness :
  exists pulse_us pwm_value,
    servo_set_angle 0 90 500 2500 50
      {| i2c_handle := 1; output := nil |}
    = Some (0%Z, printed {| i2c_handle := 1; output := nil |}
                   (OutSetAngle 0 90 pulse_us pwm_value))
    /\ (Z.min 500 2500 <= pulse_us <= Z.max 500 2500)%Z
    /\ (0 <= pwm_value <= 4095)%Z.
Proof.
  apply (@servo_set_angle_succeeds 0 90 500 2500 50
           {| i2c_handle := 1; output := nil |}); cbn; lia.
Defined.

End ExactInstances.

Section Binary64Instances.

Import Stdlib.Floats.Floats.
Import Binary64 Binary64Rounding.

Local Open Scope Z_scope.

(** X10, witness: the target (NaN, 0, 0). *)
Lemma nan_target_is_reachable_witness :
  is_reachable (num := float_scalar libm_unused)
    {| x := nan; y := 0%float; z := 0%float |}
    {| coxa_length := 30%float; femur_length := 50%float;
       tibia_length := 50%float |} = true.
Proof.
  apply (@nan_target_is_reachable libm_unused
           {| x := nan; y := 0%float; z := 0%float |}
           {| coxa_length := 30%float; femur_length := 50%float;
              tibia_length := 50%float |}).
  left. reflexivity.
Defined.

(** X12, witness: 1500 microseconds at 50 Hz, on doubles. *)
Lemma pulse_to_register_twelve_bit_witness : 0 <= 307 <= 4095.
Proof.
  apply (@pulse_to_register_twelve_bit float (float_scalar libm_unused)
           float_rounding 1500 50 307).
  reflexivity.
Defined.

(** X13, witness: channel 0 of a driver just initialised, on doubles. *)
Lemma servo_set_angle_result_witness :
  i2c_handle (printed {| i2c_handle := 1; output := nil |}
                (OutSetAngle 0 90%float 1500 307)) = 1
  /\ length (output (printed {| i2c_handle := 1; output := nil |}
                       (OutSetAngle 0 90%float 1500 307))) = 1%nat
  /\ (0 = -1 <-> 1 < 0 \/ 15 < 0)
  /\ (0 = 0 <-> 0 <= 1 /\ 0 <= 15).
Proof.
  apply (@servo_set_angle_result float (float_scalar libm_unused)
           float_rounding 0 90%float 500 2500 50
           {| i2c_handle := 1; output := nil |}).
  reflexivity.
Defined.


(** X23, witness: 50 Hz. *)
Lemma servo_driver_init_binary64_witness :
  servo_driver_init (num := float_scalar libm_unused) 1 64 50 driver_start
  = Some (0, {| i2c_handle := 1;
                output := (OutInit 1 64 50 :: OutPrescale 121 :: nil)%list |}).
Proof.
  destruct (@servo_driver_init_binary64 libm_unused 1 64 50 driver_start)
    as (E & _); [lia | ].
  exact E.
Defined.

(** X24, witness: 1500 microseconds. *)
Lemma pulse_to_register_binary64_50Hz_witness :
  pulse_to_register (num := float_scalar libm_unused) 1500 50 = Some 307.
Proof.
  apply (@pulse_to_register_binary64_50Hz libm_unused 1500). lia.
Defined.

(** X25, witness: a NaN for channel 0. *)
Lemma angle_to_pulse_nan_witness :
  angle_to_pulse (num := float_scalar libm_unused) nan 500 2500 = None.
Proof.
  apply (@angle_to_pulse_nan libm_unused nan 0 500 2500 50 driver_start).
  reflexivity.
Defined.

(** X26, witness: init, one servo, close. *)
Lemma handle_follows_init_and_close_witness :
  exists s,
    run_calls (num := float_scalar libm_unused)
      (CallInit 1 64 50 :: CallSetAngle 0 90%float 500 2500 50
         :: CallClose :: nil)%list driver_start = Some s
    /\ i2c_handle s = -1.
Proof.
  eexists. split; [reflexivity | ].
  destruct (@handle_follows_init_and_close float (float_scalar libm_unused)
              float_rounding
              (CallInit 1 64 50 :: CallSetAngle 0 90%float 500 2500 50
                 :: CallClose :: nil)%list _ eq_refl) as (E & _).
  exact E.
Defined.

End Binary64Instances.
